(** * A shallow embedding of the ray tracer's camera and shading pipeline

    The C++ sources ([src/camera.cpp], [src/main.cpp]) compute on [float] and
    [double]; both are modelled by the real numbers [R], casts between them
    are the identity, and [sqrt], [cosf], [sinf] are the real functions.
    Integers ([int]) are modelled by [Z] and enter the arithmetic through
    [IZR], as the implicit conversion [int -> double] does.

    Division follows Rocq's convention [x / 0 = 0]; wherever the program
    divides, the lemmas below say when the divisor is non-zero, which is when
    the model and the program agree.

    The statements over [R] are statements of exact real arithmetic: they
    say what the formulas of the program compute, not how its rounding
    behaves.  Module [Binary64] has the shading function on the binary64
    numbers themselves, for the one place where the two are compared. *)

From Stdlib Require Import Reals Lra Lia ZArith QArith List Psatz.
From Stdlib Require Import Machin.
From Stdlib Require Floats.
Import ListNotations.

Open Scope R_scope.

(* ================================================================= *)
(** ** Vectors, points and colours ([vec3.h]) *)

(** Modelled from the spec: [vec3.h] is not among the sources.  A vector or
    point is "a 3-component real-valued tuple used interchangeably as a free
    vector or an affine point"; the accessors [x()], [y()], [z()] are the
    ones the callers use. *)
Record vec3 : Type := mkvec3 { x : R; y : R; z : R }.

(** Modelled from the spec: [point3] and [color] are the aliases of [vec3]
    the callers use ("no type distinction enforced"). *)
Definition point3 : Type := vec3.
Definition color : Type := vec3.

(** Modelled from the spec: "componentwise add". *)
Definition vadd (u v : vec3) : vec3 :=
  mkvec3 (x u + x v) (y u + y v) (z u + z v).

(** Modelled from the spec: "componentwise subtract". *)
Definition vsub (u v : vec3) : vec3 :=
  mkvec3 (x u - x v) (y u - y v) (z u - z v).

(** Modelled from the spec: unary minus, the componentwise negation used in
    [viewport_height_ * -camera_up_]. *)
Definition vneg (v : vec3) : vec3 :=
  mkvec3 (- x v) (- y v) (- z v).

(** Modelled from the spec: "scalar multiply", written [t * v] in the
    callers. *)
Definition vscale (t : R) (v : vec3) : vec3 :=
  mkvec3 (t * x v) (t * y v) (t * z v).

(** Modelled from the spec: "scalar multiply" with the scalar on the right,
    written [v * t] in the callers. *)
Definition vscale_r (v : vec3) (t : R) : vec3 := vscale t v.

(** Modelled from the spec: "scalar divide", written [v / t] in the
    callers. *)
Definition vdiv (v : vec3) (t : R) : vec3 :=
  mkvec3 (x v / t) (y v / t) (z v / t).

(** Modelled from the spec: "dot product". *)
Definition dot (u v : vec3) : R :=
  x u * x v + y u * y v + z u * z v.

(** Modelled from the spec: "cross product" (the right-handed one). *)
Definition cross (u v : vec3) : vec3 :=
  mkvec3 (y u * z v - z u * y v)
         (z u * x v - x u * z v)
         (x u * y v - y u * x v).

(** Modelled from the spec: "length-squared". *)
Definition length_squared (v : vec3) : R :=
  x v * x v + y v * y v + z v * z v.

(** Modelled from the spec: "length". *)
Definition length (v : vec3) : R := sqrt (length_squared v).

(** Modelled from the spec: "unit-normalization (fails or produces an
    undefined result if length is zero ... not guarded in the base
    primitive)".  The division is unguarded here too: the result is only
    meaningful when [length v <> 0]. *)
Definition unit_vector (v : vec3) : vec3 := vdiv v (length v).

(** Modelled from the spec: the value of a default-constructed [vec3].  The
    camera's constructor leaves its derived members default-constructed and
    [update_camera_vectors] assigns every one of them before it is read
    (lemma [update_camera_vectors_derived] below), so no result depends on
    this value. *)
Definition vec3_default : vec3 := mkvec3 0 0 0.

Declare Scope vec_scope.
Delimit Scope vec_scope with V.
Bind Scope vec_scope with vec3.
Arguments vadd (u v)%_V.
Arguments vsub (u v)%_V.
Arguments vneg v%_V.
Arguments vscale t%_R v%_V.
Arguments vdiv v%_V t%_R.
Infix "+" := vadd : vec_scope.
Infix "-" := vsub : vec_scope.
Notation "- v" := (vneg v) : vec_scope.
Infix "*" := vscale : vec_scope.
Infix "/" := vdiv : vec_scope.

(* ================================================================= *)
(** ** Rays ([ray.h]) *)

(** Modelled from the spec: [ray.h] is not among the sources.  A ray is
    "(origin: Point, direction: Vector)". *)
Record ray : Type := mkray { origin : point3; direction : vec3 }.

(** Modelled from the spec: "[at(t)] = [origin + t * direction]". *)
Definition ray_at (r : ray) (t : R) : point3 :=
  (origin r + t * direction r)%V.

(* ================================================================= *)
(** ** The shading function ([src/main.cpp]) *)

(** The quantities the comment above [hit_sphere] names, each as a function
    of the inputs: the coefficients of [a t^2 + b t + c = 0], its
    discriminant and its two roots.  [hit_sphere] is compared with them
    below. *)
Definition quad_a (r : ray) : R := length_squared (direction r).
Definition quad_b (center : point3) (r : ray) : R :=
  2 * dot (origin r - center)%V (direction r).
Definition quad_c (center : point3) (radius : R) (r : ray) : R :=
  length_squared (origin r - center)%V - radius * radius.
Definition quad_discriminant (center : point3) (radius : R) (r : ray) : R :=
  quad_b center r * quad_b center r
  - 4 * quad_a r * quad_c center radius r.
Definition near_root (center : point3) (radius : R) (r : ray) : R :=
  (- quad_b center r - sqrt (quad_discriminant center radius r))
  / (2 * quad_a r).
Definition far_root (center : point3) (radius : R) (r : ray) : R :=
  (- quad_b center r + sqrt (quad_discriminant center radius r))
  / (2 * quad_a r).

(** [hit_sphere]: the quadratic of the ray against the sphere, the sentinel
    [-1] on a negative discriminant and otherwise the root with the minus
    sign. *)
Definition hit_sphere (center : point3) (radius : R) (r : ray) : R :=
  let originSphere := (origin r - center)%V in
  let a := length_squared (direction r) in
  let b := 2 * dot originSphere (direction r) in
  let c := length_squared originSphere - radius * radius in
  let discriminant := b * b - 4 * a * c in
  if Rlt_dec discriminant 0
  then -1
  else (- b - sqrt discriminant) / (2 * a).

(** [ray_color]: the normal-based colour on a hit with [t > 0], the vertical
    sky gradient otherwise. *)
Definition ray_color (r : ray) : color :=
  let t := hit_sphere (mkvec3 0 0 (-1)) 0.5 r in
  if Rgt_dec t 0
  then
    let N := unit_vector (ray_at r t - mkvec3 0 0 (-1))%V in
    (0.5 * mkvec3 (x N + 1) (y N + 1) (z N + 1))%V
  else
    let unit_direction := unit_vector (direction r) in
    let a := 0.5 * (y unit_direction + 1) in
    ((1 - a) * mkvec3 1 1 1 + a * mkvec3 0.5 0.7 1)%V.


(** The fixed scene of [ray_color]: one sphere. *)
Definition sphere_center : point3 := mkvec3 0 0 (-1).
Definition sphere_radius : R := 0.5.

(** The sky gradient of the miss branch, as a function of the ray's
    direction. *)
Definition sky_gradient (d : vec3) : color :=
  let a := 0.5 * (y (unit_vector d) + 1) in
  ((1 - a) * mkvec3 1 1 1 + a * mkvec3 0.5 0.7 1)%V.

(** Scenario A of the specification: the ray from the origin straight at
    the sphere. *)
Definition scenario_A_ray : ray := mkray (mkvec3 0 0 0) (mkvec3 0 0 (-1)).

(** A ray that grazes a sphere of radius 0.5 centred at (0.5, 0, -1): it
    touches the sphere at the single point (0, 0, -1). *)
Definition tangent_center : point3 := mkvec3 0.5 0 (-1).
Definition tangent_ray : ray := mkray (mkvec3 0 0 0) (mkvec3 0 0 (-1)).

(** A ray that starts at the centre of the fixed sphere and points up. *)
Definition inside_ray : ray := mkray (mkvec3 0 0 (-1)) (mkvec3 0 1 0).

(* ================================================================= *)
(** ** Quantisation of a colour channel ([render_scene], [src/main.cpp]) *)

(** [std::clamp(v, lo, hi)]: [lo] when [v < lo], [hi] when [hi < v], else
    [v]. *)
Definition clamp (v lo hi : R) : R :=
  if Rlt_dec v lo then lo else if Rlt_dec hi v then hi else v.

(** Conversion of a floating value to an integer type discards the
    fractional part (truncation toward zero). *)
Definition Rtrunc (r : R) : Z :=
  if Rle_dec 0 r then Int_part r else (- Int_part (- r))%Z.

(** [static_cast<unsigned char>(r)]: the truncated value when it fits the
    8-bit channel; the conversion is undefined otherwise ([None]). *)
Definition to_uchar (r : R) : option Z :=
  let n := Rtrunc r in
  if andb (0 <=? n)%Z (n <=? 255)%Z then Some n else None.

(** The expression stored into each of [framebuffer[idx + 0..2]]. *)
Definition channel_byte (v : R) : option Z :=
  to_uchar (256 * clamp v 0 0.999).

(** A store that is defined and holds a byte. *)
Definition stored_byte (b : option Z) : Prop :=
  exists n : Z, b = Some n /\ (0 <= n <= 255)%Z.

(** The three stores of one pixel, in the order red, green, blue. *)
Definition pixel_bytes (pixel_color : color) : list (option Z) :=
  [ channel_byte (x pixel_color);
    channel_byte (y pixel_color);
    channel_byte (z pixel_color) ].

(* ================================================================= *)
(** ** The camera ([camera.h], [src/camera.cpp]) *)

Definition M_PI : R := 3.14159265358979323846.

Definition radians (degrees : R) : R := degrees * M_PI / 180.

Record Camera : Type := mkCamera {
  (* Image dimensions *)
  image_width_ : Z;
  image_height_ : Z;
  (* Camera parameters *)
  camera_center_ : point3;
  focal_length_ : R;
  yaw_ : R;
  pitch_ : R;
  (* Camera coordinate system *)
  front_ : vec3;
  camera_right_ : vec3;
  camera_up_ : vec3;
  world_up_ : vec3;
  (* Viewport parameters *)
  viewport_height_ : R;
  viewport_width_ : R;
  viewport_u_ : vec3;
  viewport_v_ : vec3;
  pixel_delta_u_ : vec3;
  pixel_delta_v_ : vec3;
  viewport_upper_left_ : point3;
  pixel00_loc_ : point3
}.

(** Assignments to the three members the public mutators write directly. *)
Definition set_camera_center_ (v : point3) (c : Camera) : Camera :=
  mkCamera (image_width_ c) (image_height_ c) v (focal_length_ c)
           (yaw_ c) (pitch_ c) (front_ c) (camera_right_ c) (camera_up_ c)
           (world_up_ c) (viewport_height_ c) (viewport_width_ c)
           (viewport_u_ c) (viewport_v_ c) (pixel_delta_u_ c)
           (pixel_delta_v_ c) (viewport_upper_left_ c) (pixel00_loc_ c).

Definition set_yaw_ (v : R) (c : Camera) : Camera :=
  mkCamera (image_width_ c) (image_height_ c) (camera_center_ c)
           (focal_length_ c) v (pitch_ c) (front_ c) (camera_right_ c)
           (camera_up_ c) (world_up_ c) (viewport_height_ c)
           (viewport_width_ c) (viewport_u_ c) (viewport_v_ c)
           (pixel_delta_u_ c) (pixel_delta_v_ c) (viewport_upper_left_ c)
           (pixel00_loc_ c).

Definition set_pitch_ (v : R) (c : Camera) : Camera :=
  mkCamera (image_width_ c) (image_height_ c) (camera_center_ c)
           (focal_length_ c) (yaw_ c) v (front_ c) (camera_right_ c)
           (camera_up_ c) (world_up_ c) (viewport_height_ c)
           (viewport_width_ c) (viewport_u_ c) (viewport_v_ c)
           (pixel_delta_u_ c) (pixel_delta_v_ c) (viewport_upper_left_ c)
           (pixel00_loc_ c).

(** A member function reads and writes the object it is called on: a state
    transformer over [Camera] that also yields the returned value. *)
Definition method (A : Type) : Type := Camera -> A * Camera.

Definition ret {A : Type} (a : A) : method A := fun c => (a, c).

Definition bind {A B : Type} (m : method A) (k : A -> method B) : method B :=
  fun c => let (a, c') := m c in k a c'.

Definition gets {A : Type} (f : Camera -> A) : method A := fun c => (f c, c).

Definition modify (f : Camera -> Camera) : method unit := fun c => (tt, f c).

(** The object after the call, and the value the call returns. *)
Definition exec {A : Type} (m : method A) (c : Camera) : Camera := snd (m c).
Definition result {A : Type} (m : method A) (c : Camera) : A := fst (m c).

Declare Scope method_scope.
Delimit Scope method_scope with method.
Bind Scope method_scope with method.
Notation "v <- m ;; k" := (bind m (fun v => k))
  (at level 61, m at next level, right associativity) : method_scope.
Notation "m ;; k" := (bind m (fun _ => k))
  (at level 61, right associativity) : method_scope.

(** [Camera::update_camera_vectors]. *)
Definition update_camera_vectors : method unit := fun c =>
  (* Calculate new front vector from yaw and pitch *)
  let yaw_rad := radians (yaw_ c) in
  let pitch_rad := radians (pitch_ c) in
  let front := mkvec3 (cos yaw_rad * cos pitch_rad)
                      (sin pitch_rad)
                      (sin yaw_rad * cos pitch_rad) in
  let front := unit_vector front in
  (* Calculate right and up vectors *)
  let camera_right := unit_vector (cross front (world_up_ c)) in
  let camera_up := unit_vector (cross camera_right front) in
  (* Update viewport parameters *)
  let viewport_width :=
    viewport_height_ c * (IZR (image_width_ c) / IZR (image_height_ c)) in
  (* Calculate viewport edge vectors *)
  let viewport_u := (viewport_width * camera_right)%V in
  let viewport_v := (viewport_height_ c * - camera_up)%V in
  (* Calculate pixel delta vectors *)
  let pixel_delta_u := (viewport_u / IZR (image_width_ c))%V in
  let pixel_delta_v := (viewport_v / IZR (image_height_ c))%V in
  (* Calculate viewport center and upper-left corner *)
  let viewport_center :=
    (camera_center_ c + vscale_r front (focal_length_ c))%V in
  let viewport_upper_left :=
    (viewport_center - viewport_u / 2 - viewport_v / 2)%V in
  let pixel00_loc :=
    (viewport_upper_left + 0.5 * (pixel_delta_u + pixel_delta_v))%V in
  (tt,
   {| image_width_ := image_width_ c;
      image_height_ := image_height_ c;
      camera_center_ := camera_center_ c;
      focal_length_ := focal_length_ c;
      yaw_ := yaw_ c;
      pitch_ := pitch_ c;
      front_ := front;
      camera_right_ := camera_right;
      camera_up_ := camera_up;
      world_up_ := world_up_ c;
      viewport_height_ := viewport_height_ c;
      viewport_width_ := viewport_width;
      viewport_u_ := viewport_u;
      viewport_v_ := viewport_v;
      pixel_delta_u_ := pixel_delta_u;
      pixel_delta_v_ := pixel_delta_v;
      viewport_upper_left_ := viewport_upper_left;
      pixel00_loc_ := pixel00_loc |}).

(** [Camera::Camera]: the member initialisers, then
    [update_camera_vectors]. *)
Definition new_Camera (image_width image_height : Z) (position : point3)
    (focal_length : R) : Camera :=
  exec update_camera_vectors
    {| image_width_ := image_width;
       image_height_ := image_height;
       camera_center_ := position;
       focal_length_ := focal_length;
       yaw_ := -90;  (* Start looking down negative Z axis *)
       pitch_ := 0;
       front_ := mkvec3 0 0 (-1);
       camera_right_ := vec3_default;
       camera_up_ := vec3_default;
       world_up_ := mkvec3 0 1 0;
       viewport_height_ := 2;
       viewport_width_ := 0;
       viewport_u_ := vec3_default;
       viewport_v_ := vec3_default;
       pixel_delta_u_ := vec3_default;
       pixel_delta_v_ := vec3_default;
       viewport_upper_left_ := vec3_default;
       pixel00_loc_ := vec3_default |}.

(** [Camera::get_ray] (a [const] member function). *)
Definition get_ray (pixel_x pixel_y : Z) : method ray :=
  (pixel00_loc <- gets pixel00_loc_ ;;
   pixel_delta_u <- gets pixel_delta_u_ ;;
   pixel_delta_v <- gets pixel_delta_v_ ;;
   camera_center <- gets camera_center_ ;;
   let pixel_center :=
     (pixel00_loc + IZR pixel_x * pixel_delta_u
                  + IZR pixel_y * pixel_delta_v)%V in
   let ray_direction := (pixel_center - camera_center)%V in
   ret (mkray camera_center ray_direction))%method.

(** [Camera::move]. *)
Definition move (offset : vec3) : method unit :=
  (modify (fun c => set_camera_center_ (camera_center_ c + offset)%V c) ;;
   update_camera_vectors)%method.

(** [Camera::rotate]. *)
Definition rotate (delta_yaw delta_pitch : R) : method unit :=
  (modify (fun c => set_yaw_ (yaw_ c + delta_yaw) c) ;;
   modify (fun c => set_pitch_ (pitch_ c + delta_pitch) c) ;;
   (* Constrain pitch to avoid gimbal lock *)
   pitch <- gets pitch_ ;;
   (if Rgt_dec pitch 89 then modify (set_pitch_ 89) else ret tt) ;;
   pitch <- gets pitch_ ;;
   (if Rlt_dec pitch (-89) then modify (set_pitch_ (-89)) else ret tt) ;;
   update_camera_vectors)%method.

(** [Camera::set_position]. *)
Definition set_position (position : point3) : method unit :=
  modify (set_camera_center_ position).

(** The two mutators that recompute the derived state, as a call, and
    sequences of such calls on one camera. *)
Inductive call : Type :=
| Move (offset : vec3)
| Rotate (delta_yaw delta_pitch : R).

Definition perform (k : call) : method unit :=
  match k with
  | Move offset => move offset
  | Rotate delta_yaw delta_pitch => rotate delta_yaw delta_pitch
  end.

Fixpoint perform_all (ks : list call) : method unit :=
  match ks with
  | [] => ret tt
  | k :: ks' => (perform k ;; perform_all ks')%method
  end.

(** The derived state is up to date: recomputing it changes nothing. *)
Definition up_to_date (c : Camera) : Prop :=
  exec update_camera_vectors c = c.

(** Three vectors are pairwise orthogonal and of unit length. *)
Definition orthonormal (f r u : vec3) : Prop :=
  dot f r = 0 /\ dot f u = 0 /\ dot r u = 0 /\
  length f = 1 /\ length r = 1 /\ length u = 1.

(** What the constructor establishes and [rotate] keeps: the reference
    vector is (0, 1, 0) and the pitch is within the clamp. *)
Definition pose_ok (c : Camera) : Prop :=
  world_up_ c = mkvec3 0 1 0 /\ -89 <= pitch_ c <= 89.

(** [render_scene]: one pixel of the sweep (the ray of the pixel, its colour,
    the three bytes stored at [idx], [idx + 1], [idx + 2]), and the sweep in
    row-major order. *)
Definition render_pixel (camera : Camera) (i j : Z) : list (option Z) :=
  let r := result (get_ray i j) camera in
  let pixel_color := ray_color r in
  pixel_bytes pixel_color.

Definition render_scene (camera : Camera) (image_width image_height : nat)
  : list (option Z) :=
  flat_map (fun j =>
    flat_map (fun i => render_pixel camera (Z.of_nat i) (Z.of_nat j))
             (seq 0 image_width))
    (seq 0 image_height).

(* ================================================================= *)
(** ** The accessors of the camera ([camera.h]) *)

(** [get_position], [get_forward], [get_right], [get_up], [get_yaw],
    [get_pitch]: [const] member functions that return a member. *)
Definition get_position : method point3 := gets camera_center_.
Definition get_forward : method vec3 := gets front_.
Definition get_right : method vec3 := gets camera_right_.
Definition get_up : method vec3 := gets camera_up_.
Definition get_yaw : method R := gets yaw_.
Definition get_pitch : method R := gets pitch_.

(* ================================================================= *)
(** ** The event loop of [main] ([src/main.cpp]) *)

(** What one iteration of the loop reads from the window and the widgets:
    the clock ([glfwGetTime]), the right mouse button
    ([glfwGetMouseButton]), the cursor ([glfwGetCursorPos]), the six
    movement keys ([glfwGetKey]), the Reload button, and the values the two
    sliders and the checkbox leave in [camera_speed], [sensitivity] and
    [invertY]. *)
Record frame_events : Type := mkframe_events {
  currentFrameTime : R;
  mouse_button_right : bool;
  mouseX : R;
  mouseY : R;
  key_A : bool;
  key_D : bool;
  key_W : bool;
  key_S : bool;
  key_SPACE : bool;
  key_LEFT_CONTROL : bool;
  button_Reload : bool;
  slider_camera_speed : R;
  slider_sensitivity : R;
  checkbox_invertY : bool
}.

(** The variables of [main] that live across iterations. *)
Record loop_state : Type := mkloop_state {
  camera : Camera;
  framebuffer : list (option Z);
  camera_speed : R;
  lastFrameTime : R;
  delta_time : R;
  rightMousePressed : bool;
  lastMouseX : R;
  lastMouseY : R;
  sensitivity : R;
  invertY : bool;
  reload : bool
}.

Definition image_width : nat := 1280.
Definition image_height : nat := 720.

(** Assignments to the variables of the loop. *)
Definition set_camera (v : Camera) (s : loop_state) : loop_state :=
  mkloop_state v (framebuffer s) (camera_speed s) (lastFrameTime s)
               (delta_time s) (rightMousePressed s) (lastMouseX s)
               (lastMouseY s) (sensitivity s) (invertY s) (reload s).

Definition set_framebuffer (v : list (option Z)) (s : loop_state)
  : loop_state :=
  mkloop_state (camera s) v (camera_speed s) (lastFrameTime s)
               (delta_time s) (rightMousePressed s) (lastMouseX s)
               (lastMouseY s) (sensitivity s) (invertY s) (reload s).

Definition set_times (last delta : R) (s : loop_state) : loop_state :=
  mkloop_state (camera s) (framebuffer s) (camera_speed s) last delta
               (rightMousePressed s) (lastMouseX s) (lastMouseY s)
               (sensitivity s) (invertY s) (reload s).

Definition set_rightMousePressed (v : bool) (s : loop_state) : loop_state :=
  mkloop_state (camera s) (framebuffer s) (camera_speed s) (lastFrameTime s)
               (delta_time s) v (lastMouseX s) (lastMouseY s)
               (sensitivity s) (invertY s) (reload s).

Definition set_lastMouse (vx vy : R) (s : loop_state) : loop_state :=
  mkloop_state (camera s) (framebuffer s) (camera_speed s) (lastFrameTime s)
               (delta_time s) (rightMousePressed s) vx vy
               (sensitivity s) (invertY s) (reload s).

Definition set_widgets (speed sens : R) (inv : bool) (s : loop_state)
  : loop_state :=
  mkloop_state (camera s) (framebuffer s) speed (lastFrameTime s)
               (delta_time s) (rightMousePressed s) (lastMouseX s)
               (lastMouseY s) sens inv (reload s).

Definition set_reload (v : bool) (s : loop_state) : loop_state :=
  mkloop_state (camera s) (framebuffer s) (camera_speed s) (lastFrameTime s)
               (delta_time s) (rightMousePressed s) (lastMouseX s)
               (lastMouseY s) (sensitivity s) (invertY s) v.

(** The state before the first iteration: the camera of [main], its initial
    render, and the initial values of the other variables.  [t0] is what
    [glfwGetTime] returns there. *)
Definition loop_init (t0 : R) : loop_state :=
  let camera :=
    new_Camera (Z.of_nat image_width) (Z.of_nat image_height)
               (mkvec3 0 0 0) 1 in
  {| camera := camera;
     framebuffer := render_scene camera image_width image_height;
     camera_speed := 1;
     lastFrameTime := t0;
     delta_time := 0;
     rightMousePressed := false;
     lastMouseX := 0;
     lastMouseY := 0;
     sensitivity := 0.2;
     invertY := true;
     reload := false |}.

(** [static_cast<float>(v)] and [static_cast<double>(v)] on a floating
    value: conversions between the two floating types, the identity on the
    reals. *)
Definition to_float (v : R) : R := v.

(** Mouse look controls: the state after them and whether the camera was
    rotated. *)
Definition mouse_look (e : frame_events) (s : loop_state)
  : loop_state * bool :=
  if mouse_button_right e then
    if negb (rightMousePressed s) then
      (set_lastMouse (mouseX e) (mouseY e) (set_rightMousePressed true s),
       false)
    else
      let offsetX := mouseX e - lastMouseX s in
      let offsetY := mouseY e - lastMouseY s in
      let s := set_lastMouse (mouseX e) (mouseY e) s in
      let delta_yaw := to_float offsetX * sensitivity s in
      let delta_pitch :=
        to_float (if invertY s then offsetY else - offsetY)
        * sensitivity s in
      (set_camera (exec (rotate delta_yaw delta_pitch) (camera s)) s, true)
  else
    (set_rightMousePressed false s, false).

(** Keyboard movement controls: the offset accumulated from the six keys. *)
Definition keyboard_offset (e : frame_events) (s : loop_state) : vec3 :=
  let along (v : vec3) : vec3 :=
    vscale_r (vscale_r v (camera_speed s)) (to_float (delta_time s)) in
  let move_offset := mkvec3 0 0 0 in
  let move_offset :=
    if key_A e
    then (move_offset - along (result get_right (camera s)))%V
    else move_offset in
  let move_offset :=
    if key_D e
    then (move_offset + along (result get_right (camera s)))%V
    else move_offset in
  let move_offset :=
    if key_W e
    then (move_offset + along (result get_forward (camera s)))%V
    else move_offset in
  let move_offset :=
    if key_S e
    then (move_offset - along (result get_forward (camera s)))%V
    else move_offset in
  let move_offset :=
    if key_SPACE e
    then (move_offset - along (result get_up (camera s)))%V
    else move_offset in
  let move_offset :=
    if key_LEFT_CONTROL e
    then (move_offset + along (result get_up (camera s)))%V
    else move_offset in
  move_offset.

(** One iteration of the loop, up to the drawing calls. *)
Definition frame (e : frame_events) (s : loop_state) : loop_state :=
  let s := set_times (currentFrameTime e)
                     (currentFrameTime e - lastFrameTime s) s in
  (* Mouse look controls *)
  let (s, camera_updated) := mouse_look e s in
  (* Keyboard movement controls *)
  let move_offset := keyboard_offset e s in
  let (s, camera_updated) :=
    if Rgt_dec (length_squared move_offset) 0
    then (set_camera (exec (move move_offset) (camera s)) s, true)
    else (s, camera_updated) in
  (* Re-render if camera changed *)
  let s :=
    if camera_updated
    then set_framebuffer (render_scene (camera s) image_width image_height) s
    else s in
  (* ImGui *)
  let s := if button_Reload e then set_reload true s else s in
  let s := set_widgets (slider_camera_speed e) (slider_sensitivity e)
                       (checkbox_invertY e) s in
  (* If reload requested, recalculate image *)
  if reload s
  then set_reload false
         (set_framebuffer
            (render_scene (camera s) image_width image_height) s)
  else s.

(** The loop over the events of successive iterations. *)
Fixpoint frames (es : list frame_events) (s : loop_state) : loop_state :=
  match es with
  | [] => s
  | e :: es' => frames es' (frame e s)
  end.

(** A pressed key as a factor: 1 when pressed, 0 otherwise. *)
Definition pressed (b : bool) : R := if b then 1 else 0.

(* ================================================================= *)
(** ** The first program ([main.cpp] at the root): a fixed camera that
    writes the image as text *)

Module Ppm.

(** [hit_sphere] and [ray_color] as this file has them: the squared lengths
    are written as dot products. *)
Definition hit_sphere (center : point3) (radius : R) (r : ray) : R :=
  let originSphere := (origin r - center)%V in
  let a := dot (direction r) (direction r) in
  let b := 2 * dot originSphere (direction r) in
  let c := dot originSphere originSphere - radius * radius in
  let discriminant := b * b - 4 * a * c in
  if Rlt_dec discriminant 0
  then -1
  else (- b - sqrt discriminant) / (2 * a).

Definition ray_color (r : ray) : color :=
  let t := hit_sphere (mkvec3 0 0 (-1)) 0.5 r in
  if Rgt_dec t 0
  then
    let N := unit_vector (ray_at r t - mkvec3 0 0 (-1))%V in
    (0.5 * mkvec3 (x N + 1) (y N + 1) (z N + 1))%V
  else
    let unit_direction := unit_vector (direction r) in
    let a := 0.5 * (y unit_direction + 1) in
    ((1 - a) * mkvec3 1 1 1 + a * mkvec3 0.5 0.7 1)%V.

(** The set-up of [main]: image, camera and viewport. *)
Definition aspect_ratio : R := 16 / 9.
Definition image_width : Z := 400.
Definition image_height : Z :=
  Z.max 1 (Rtrunc (IZR image_width / aspect_ratio)).

Definition focal_length : R := 1.
Definition viewport_height : R := 2.
Definition viewport_width : R :=
  viewport_height * (IZR image_width / IZR image_height).
Definition camera_center : point3 := mkvec3 0 0 0.

Definition viewport_u : vec3 := mkvec3 viewport_width 0 0.
Definition viewport_v : vec3 := mkvec3 0 (- viewport_height) 0.

Definition pixel_delta_u : vec3 := (viewport_u / IZR image_width)%V.
Definition pixel_delta_v : vec3 := (viewport_v / IZR image_height)%V.

Definition viewport_upper_left : point3 :=
  (camera_center - mkvec3 0 0 focal_length
   - viewport_u / 2 - viewport_v / 2)%V.
Definition pixel00_loc : point3 :=
  (viewport_upper_left + 0.5 * (pixel_delta_u + pixel_delta_v))%V.

(** The ray of the pixel in column [i] of row [j], as the body of the two
    loops builds it. *)
Definition pixel_ray (i j : Z) : ray :=
  let pixel_center :=
    (pixel00_loc + IZR i * pixel_delta_u + IZR j * pixel_delta_v)%V in
  let ray_direction := (pixel_center - camera_center)%V in
  mkray camera_center ray_direction.

End Ppm.

(* ================================================================= *)
(** ** The shading function in binary64

    The same two functions of [src/main.cpp] with [double] as the IEEE 754
    binary64 numbers of the kernel: every operation rounds to nearest, and
    [sqrt] is the correctly rounded square root.  This is the arithmetic the
    program runs on; the development over [R] above is its idealisation. *)

Module Binary64.

Import Floats.
Local Open Scope float_scope.

(** Modelled from the spec: the vectors of [vec3.h] with [double]
    components; each componentwise operation is one rounded operation per
    component, and the sums of a dot product and of a squared length are
    taken from left to right. *)
Record vec3 : Type := mkvec3 { x : float; y : float; z : float }.

(** Modelled from the spec: "componentwise add". *)
Definition vadd (u v : vec3) : vec3 :=
  mkvec3 (x u + x v) (y u + y v) (z u + z v).

(** Modelled from the spec: "componentwise subtract". *)
Definition vsub (u v : vec3) : vec3 :=
  mkvec3 (x u - x v) (y u - y v) (z u - z v).

(** Modelled from the spec: "scalar multiply". *)
Definition vscale (t : float) (v : vec3) : vec3 :=
  mkvec3 (t * x v) (t * y v) (t * z v).

(** Modelled from the spec: "scalar divide". *)
Definition vdiv (v : vec3) (t : float) : vec3 :=
  mkvec3 (x v / t) (y v / t) (z v / t).

(** Modelled from the spec: "dot product". *)
Definition dot (u v : vec3) : float :=
  x u * x v + y u * y v + z u * z v.

(** Modelled from the spec: "length-squared" and "length". *)
Definition length_squared (v : vec3) : float :=
  x v * x v + y v * y v + z v * z v.
Definition length (v : vec3) : float := sqrt (length_squared v).

(** Modelled from the spec: "unit-normalization". *)
Definition unit_vector (v : vec3) : vec3 := vdiv v (length v).

(** Modelled from the spec: a ray and "[at(t)] = [origin + t * direction]". *)
Record ray : Type := mkray { origin : vec3; direction : vec3 }.
Definition ray_at (r : ray) (t : float) : vec3 :=
  vadd (origin r) (vscale t (direction r)).

(** [hit_sphere] ([src/main.cpp]). *)
Definition hit_sphere (center : vec3) (radius : float) (r : ray) : float :=
  let originSphere := vsub (origin r) center in
  let a := length_squared (direction r) in
  let b := 2 * dot originSphere (direction r) in
  let c := length_squared originSphere - radius * radius in
  let discriminant := b * b - 4 * a * c in
  if discriminant <? 0
  then -1
  else (- b - sqrt discriminant) / (2 * a).

(** The colour of the miss branch of [ray_color]. *)
Definition sky_gradient (d : vec3) : vec3 :=
  let unit_direction := unit_vector d in
  let a := 0.5 * (y unit_direction + 1) in
  vadd (vscale (1 - a) (mkvec3 1 1 1)) (vscale a (mkvec3 0.5 0x1.6666666666666p-1 1)).

(** [ray_color] ([src/main.cpp]). *)
Definition ray_color (r : ray) : vec3 :=
  let t := hit_sphere (mkvec3 0 0 (-1)) 0.5 r in
  if 0 <? t
  then
    let N := unit_vector (vsub (ray_at r t) (mkvec3 0 0 (-1))) in
    vscale 0.5 (mkvec3 (x N + 1) (y N + 1) (z N + 1))
  else sky_gradient (direction r).

(** The value of a finite binary64 number as a rational; 0 for the
    infinities and NaN, which the inputs below are not. *)
Definition value (f : float) : Q :=
  match Prim2SF f with
  | S754_finite s m e =>
      let v := match e with
               | Z0 => Z.pos m # 1
               | Zpos p => (Z.pos m * 2 ^ Zpos p)%Z # 1
               | Zneg p => Z.pos m # (2 ^ p)%positive
               end in
      if s then Qopp v else v
  | _ => 0%Q
  end.

(** A ray that starts strictly inside the fixed sphere, close to its
    surface, and points straight down. *)
Definition inside_origin : vec3 :=
  mkvec3 0x1.92d1daf5fc51fp-2 0x1.36ecbec0da25ap-2 (-0x1.e3b068b015134p-1).
Definition inside_ray : ray := mkray inside_origin (mkvec3 0 (-1) 0).

(** The fixed sphere, the zero vector and white; the comparisons of the
    program ([t > 0.0] and [<]). *)
Definition sphere_center : vec3 := mkvec3 0 0 (-1).
Definition sphere_radius : float := 0.5.
Definition zero_vector : vec3 := mkvec3 0 0 0.
Definition white : vec3 := mkvec3 1 1 1.
Definition positive (f : float) : bool := 0 <? f.
Definition below (f g : float) : bool := f <? g.

End Binary64.

(* ================================================================= *)
(** ** Vector algebra *)

Lemma vec3_eq (u v : vec3) :
  x u = x v -> y u = y v -> z u = z v -> u = v.
Proof. destruct u, v; simpl; intros; subst; reflexivity. Qed.

(** Equations between vectors that hold component by component in every
    commutative ring. *)
Ltac vec_ring := apply vec3_eq; simpl; ring.

Lemma length_squared_nonneg (v : vec3) : 0 <= length_squared v.
Proof. unfold length_squared. nra. Qed.

Lemma length_squared_zero (v : vec3) :
  length_squared v = 0 -> v = mkvec3 0 0 0.
Proof.
  unfold length_squared. intros H.
  apply vec3_eq; simpl; nra.
Qed.

Lemma length_squared_pos (v : vec3) :
  v <> mkvec3 0 0 0 -> 0 < length_squared v.
Proof.
  intros Hv.
  destruct (Rle_lt_or_eq_dec _ _ (length_squared_nonneg v)) as [H|H]; trivial.
  exfalso. apply Hv, length_squared_zero. symmetry; exact H.
Qed.

Lemma length_nonneg (v : vec3) : 0 <= length v.
Proof. apply sqrt_pos. Qed.

Lemma length_sqr (v : vec3) : length v * length v = length_squared v.
Proof. apply sqrt_def, length_squared_nonneg. Qed.

Lemma length_pos (v : vec3) : v <> mkvec3 0 0 0 -> 0 < length v.
Proof. intros Hv. apply sqrt_lt_R0, length_squared_pos, Hv. Qed.

Lemma length_of_unit_square (v : vec3) : length_squared v = 1 -> length v = 1.
Proof. intros H. unfold length. rewrite H. apply sqrt_1. Qed.

(** Normalising a vector of non-zero length gives a vector of length 1. *)
Lemma unit_vector_length_squared (v : vec3) :
  length v <> 0 -> length_squared (unit_vector v) = 1.
Proof.
  intros Hl. unfold unit_vector, vdiv, length_squared at 1; simpl.
  pose proof (length_sqr v) as Hs. unfold length_squared in Hs.
  field_simplify_eq; [ | exact Hl ]. nra.
Qed.

Lemma unit_vector_of_unit (v : vec3) :
  length_squared v = 1 -> unit_vector v = v.
Proof.
  intros H. unfold unit_vector. rewrite (length_of_unit_square v H).
  apply vec3_eq; simpl; field.
Qed.

(* ================================================================= *)
(** ** The ray-sphere intersection *)

(** [hit_sphere] in terms of the named coefficients. *)
Lemma hit_sphere_unfold (center : point3) (radius : R) (r : ray) :
  hit_sphere center radius r =
  if Rlt_dec (quad_discriminant center radius r) 0
  then -1
  else near_root center radius r.
Proof. reflexivity. Qed.

Lemma hit_sphere_miss (center : point3) (radius : R) (r : ray) :
  quad_discriminant center radius r < 0 ->
  hit_sphere center radius r = -1.
Proof.
  intros H. rewrite hit_sphere_unfold.
  destruct (Rlt_dec _ _); [ reflexivity | contradiction ].
Qed.

Lemma hit_sphere_root (center : point3) (radius : R) (r : ray) :
  0 <= quad_discriminant center radius r ->
  hit_sphere center radius r = near_root center radius r.
Proof.
  intros H. rewrite hit_sphere_unfold.
  destruct (Rlt_dec _ _); [ lra | reflexivity ].
Qed.

(** The value with the minus sign solves the quadratic. *)
Lemma near_root_solves (center : point3) (radius : R) (r : ray) :
  quad_a r <> 0 ->
  0 <= quad_discriminant center radius r ->
  let t := near_root center radius r in
  quad_a r * (t * t) + quad_b center r * t + quad_c center radius r = 0.
Proof.
  intros Ha Hd t. subst t. unfold near_root.
  pose proof (sqrt_def _ Hd) as Hs.
  set (s := sqrt (quad_discriminant center radius r)) in *.
  unfold quad_discriminant in Hs.
  field_simplify_eq; [ | exact Ha ]. nra.
Qed.

Lemma near_le_far (center : point3) (radius : R) (r : ray) :
  0 < quad_a r ->
  near_root center radius r <= far_root center radius r.
Proof.
  intros Ha. unfold near_root, far_root.
  pose proof (sqrt_pos (quad_discriminant center radius r)) as Hs.
  apply Rmult_le_compat_r; [ left; apply Rinv_0_lt_compat; lra | lra ].
Qed.

Lemma near_lt_far (center : point3) (radius : R) (r : ray) :
  0 < quad_a r ->
  0 < quad_discriminant center radius r ->
  near_root center radius r < far_root center radius r.
Proof.
  intros Ha Hd. unfold near_root, far_root.
  pose proof (sqrt_lt_R0 _ Hd) as Hs.
  apply Rmult_lt_compat_r; [ apply Rinv_0_lt_compat; lra | lra ].
Qed.

(** The squared distance from the centre to the point of the ray at
    parameter [t] is the quadratic plus the squared radius. *)
Lemma ray_at_distance (center : point3) (radius : R) (r : ray) (t : R) :
  length_squared (ray_at r t - center)%V
  = quad_a r * (t * t) + quad_b center r * t + quad_c center radius r
    + radius * radius.
Proof.
  unfold ray_at, quad_a, quad_b, quad_c, length_squared, dot; simpl. ring.
Qed.

(** Whenever [hit_sphere] returns a root, the point it designates lies on
    the sphere; for a non-zero radius the normal [ray_color] normalises there
    has a non-zero length. *)
Lemma hit_point_on_sphere (center : point3) (radius : R) (r : ray) :
  direction r <> mkvec3 0 0 0 ->
  0 <= quad_discriminant center radius r ->
  length_squared (ray_at r (hit_sphere center radius r) - center)%V
  = radius * radius.
Proof.
  intros Hdir Hd.
  assert (Ha : 0 < quad_a r) by (apply length_squared_pos, Hdir).
  rewrite (ray_at_distance center radius).
  rewrite hit_sphere_root by assumption.
  pose proof (near_root_solves center radius r) as Hs. cbv zeta in Hs.
  rewrite Hs; [ ring | lra | assumption ].
Qed.

(** [ray_color] in terms of the fixed sphere and the sky gradient. *)
Lemma ray_color_unfold (r : ray) :
  ray_color r =
  let t := hit_sphere sphere_center sphere_radius r in
  if Rgt_dec t 0
  then
    let N := unit_vector (ray_at r t - sphere_center)%V in
    (0.5 * mkvec3 (x N + 1) (y N + 1) (z N + 1))%V
  else sky_gradient (direction r).
Proof. reflexivity. Qed.

Lemma ray_color_hit (r : ray) :
  hit_sphere sphere_center sphere_radius r > 0 ->
  ray_color r =
  let N := unit_vector
             (ray_at r (hit_sphere sphere_center sphere_radius r)
              - sphere_center)%V in
  (0.5 * mkvec3 (x N + 1) (y N + 1) (z N + 1))%V.
Proof.
  intros H. rewrite ray_color_unfold. cbv zeta.
  destruct (Rgt_dec _ _); [ reflexivity | contradiction ].
Qed.

Lemma ray_color_miss (r : ray) :
  ~ hit_sphere sphere_center sphere_radius r > 0 ->
  ray_color r = sky_gradient (direction r).
Proof.
  intros H. rewrite ray_color_unfold. cbv zeta.
  destruct (Rgt_dec _ _); [ contradiction | reflexivity ].
Qed.

Lemma sqrt_quarter : sqrt 0.25 = 0.5.
Proof. apply sqrt_lem_1; lra. Qed.

(** A point strictly inside the sphere has [c < 0]. *)
Lemma inside_quad_c_neg (center : point3) (radius : R) (r : ray) :
  length (origin r - center)%V < radius ->
  quad_c center radius r < 0.
Proof.
  intros H. unfold quad_c.
  pose proof (length_sqr (origin r - center)%V) as Hs.
  pose proof (length_nonneg (origin r - center)%V) as Hn.
  nra.
Qed.

(** With [a > 0] and [c < 0] the discriminant is positive and the root with
    the minus sign is negative. *)
Lemma near_root_negative (center : point3) (radius : R) (r : ray) :
  0 < quad_a r ->
  quad_c center radius r < 0 ->
  0 < quad_discriminant center radius r /\ near_root center radius r < 0.
Proof.
  intros Ha Hc.
  assert (Hd : quad_b center r * quad_b center r
               < quad_discriminant center radius r).
  { unfold quad_discriminant. nra. }
  assert (Hd0 : 0 < quad_discriminant center radius r) by nra.
  split; [ exact Hd0 | ].
  unfold near_root.
  pose proof (sqrt_def _ (Rlt_le _ _ Hd0)) as Hs.
  pose proof (sqrt_pos (quad_discriminant center radius r)) as Hp.
  set (s := sqrt (quad_discriminant center radius r)) in *.
  assert (Hnum : - quad_b center r - s < 0) by nra.
  assert (Hinv : 0 < / (2 * quad_a r)) by (apply Rinv_0_lt_compat; lra).
  unfold Rdiv. nra.
Qed.

Lemma mkvec3_neq_zero (a b c : R) :
  a <> 0 \/ b <> 0 \/ c <> 0 -> mkvec3 a b c <> mkvec3 0 0 0.
Proof. intros H E. injection E as -> -> ->. tauto. Qed.

(** *** Scenario A *)

Lemma scenario_A_coefficients :
  quad_a scenario_A_ray = 1 /\
  quad_b sphere_center scenario_A_ray = -2 /\
  quad_discriminant sphere_center sphere_radius scenario_A_ray = 1.
Proof.
  unfold quad_discriminant, quad_c, quad_b, quad_a, dot, length_squared,
    sphere_radius; simpl.
  repeat split; lra.
Qed.

Lemma scenario_A_hit :
  hit_sphere sphere_center sphere_radius scenario_A_ray = 0.5.
Proof.
  destruct scenario_A_coefficients as (Ha & Hb & Hd).
  rewrite hit_sphere_root by lra.
  unfold near_root. rewrite Ha, Hb, Hd, sqrt_1. lra.
Qed.

Lemma scenario_A_normal :
  unit_vector (ray_at scenario_A_ray 0.5 - sphere_center)%V = mkvec3 0 0 1.
Proof.
  unfold unit_vector, length.
  replace (length_squared (ray_at scenario_A_ray 0.5 - sphere_center)%V)
    with 0.25 by (unfold length_squared; simpl; lra).
  rewrite sqrt_quarter.
  apply vec3_eq; simpl; lra.
Qed.

Lemma scenario_A_color : ray_color scenario_A_ray = mkvec3 0.5 0.5 1.
Proof.
  rewrite ray_color_hit by (rewrite scenario_A_hit; lra).
  cbv zeta. rewrite scenario_A_hit, scenario_A_normal.
  apply vec3_eq; simpl; lra.
Qed.

(** *** The grazing ray *)

Lemma tangent_coefficients :
  quad_a tangent_ray = 1 /\
  quad_b tangent_center tangent_ray = -2 /\
  quad_discriminant tangent_center 0.5 tangent_ray = 0.
Proof.
  unfold quad_discriminant, quad_c, quad_b, quad_a, dot, length_squared;
    simpl.
  repeat split; lra.
Qed.

(** C3, as stated, fails: on the grazing ray (non-zero direction,
    discriminant 0) the value [hit_sphere] returns, 1, is the far root
    [(-b + sqrt(discriminant)) / (2a)], so "the far root is never returned
    for any input" does not hold. *)
Lemma hit_sphere_returns_far_root_when_tangent :
  direction tangent_ray <> mkvec3 0 0 0 /\
  quad_discriminant tangent_center 0.5 tangent_ray = 0 /\
  hit_sphere tangent_center 0.5 tangent_ray = 1 /\
  far_root tangent_center 0.5 tangent_ray = 1 /\
  hit_sphere tangent_center 0.5 tangent_ray
  = far_root tangent_center 0.5 tangent_ray.
Proof.
  destruct tangent_coefficients as (Ha & Hb & Hd).
  assert (Hh : hit_sphere tangent_center 0.5 tangent_ray = 1).
  { rewrite hit_sphere_root by lra.
    unfold near_root. rewrite Ha, Hb, Hd, sqrt_0. lra. }
  assert (Hf : far_root tangent_center 0.5 tangent_ray = 1).
  { unfold far_root. rewrite Ha, Hb, Hd, sqrt_0. lra. }
  repeat split.
  - apply mkvec3_neq_zero. right; right. lra.
  - exact Hd.
  - exact Hh.
  - exact Hf.
  - rewrite Hh, Hf. reflexivity.
Qed.

(** C3 (amended): for a ray of non-zero direction, [hit_sphere] returns the
    sentinel [-1] when the discriminant [b^2 - 4ac] of
    [a = |direction|^2], [b = 2 (origin - center) . direction],
    [c = |origin - center|^2 - radius^2] is negative, and otherwise exactly
    the near root [(-b - sqrt(discriminant)) / (2a)], which solves
    [a t^2 + b t + c = 0] and is at most the far root; whenever the
    discriminant is positive the returned value is strictly below the far
    root, and when the discriminant is zero the two roots coincide and that
    common value is returned. *)
Theorem hit_sphere_near_root (center : point3) (radius : R) (r : ray) :
  direction r <> mkvec3 0 0 0 ->
  quad_a r = length_squared (direction r) /\
  quad_b center r = 2 * dot (origin r - center)%V (direction r) /\
  quad_c center radius r
  = length_squared (origin r - center)%V - radius * radius /\
  quad_discriminant center radius r
  = quad_b center r * quad_b center r
    - 4 * quad_a r * quad_c center radius r /\
  (quad_discriminant center radius r < 0 ->
   hit_sphere center radius r = -1) /\
  (0 <= quad_discriminant center radius r ->
   hit_sphere center radius r
   = (- quad_b center r - sqrt (quad_discriminant center radius r))
     / (2 * quad_a r) /\
   quad_a r * (hit_sphere center radius r * hit_sphere center radius r)
   + quad_b center r * hit_sphere center radius r
   + quad_c center radius r = 0 /\
   hit_sphere center radius r <= far_root center radius r) /\
  (0 < quad_discriminant center radius r ->
   hit_sphere center radius r < far_root center radius r) /\
  (quad_discriminant center radius r = 0 ->
   hit_sphere center radius r = far_root center radius r).
Proof.
  intros Hdir.
  assert (Ha : 0 < quad_a r) by (apply length_squared_pos, Hdir).
  repeat split; try reflexivity.
  - apply hit_sphere_miss.
  - rewrite hit_sphere_root by assumption. reflexivity.
  - rewrite hit_sphere_root by assumption.
    apply near_root_solves; [ lra | assumption ].
  - rewrite hit_sphere_root by assumption. apply near_le_far, Ha.
  - intros Hd. rewrite hit_sphere_root by lra. apply near_lt_far; assumption.
  - intros Hd. rewrite hit_sphere_root by lra.
    unfold near_root, far_root. rewrite Hd, sqrt_0.
    unfold Rdiv. ring.
Qed.

Lemma hit_sphere_near_root_witness :
  direction scenario_A_ray <> mkvec3 0 0 0 /\
  hit_sphere sphere_center sphere_radius scenario_A_ray
  < far_root sphere_center sphere_radius scenario_A_ray.
Proof.
  assert (H : direction scenario_A_ray <> mkvec3 0 0 0).
  { apply mkvec3_neq_zero. right; right. simpl. lra. }
  split; [ exact H | ].
  destruct scenario_A_coefficients as (_ & _ & Hd).
  apply (hit_sphere_near_root sphere_center sphere_radius scenario_A_ray H).
  rewrite Hd. lra.
Defined.

(** C7, as stated, fails: the colour of scenario A is not (1, 1, 1). *)
Lemma scenario_A_color_not_white :
  ray_color scenario_A_ray <> mkvec3 1 1 1.
Proof.
  rewrite scenario_A_color. intros E. injection E as E. lra.
Qed.

(** C7 (amended): for the ray with origin (0,0,0) and direction (0,0,-1)
    against the sphere of centre (0,0,-1) and radius 0.5, [hit_sphere]
    returns [t = 0.5], the surface normal [unit(ray.at(t) - center)] is
    (0,0,1), and the colour [ray_color] returns is
    [0.5 * (0+1, 0+1, 1+1) = (0.5, 0.5, 1)]. *)
Theorem scenario_A_shading :
  hit_sphere (mkvec3 0 0 (-1)) 0.5 (mkray (mkvec3 0 0 0) (mkvec3 0 0 (-1)))
  = 0.5 /\
  unit_vector
    (ray_at (mkray (mkvec3 0 0 0) (mkvec3 0 0 (-1))) 0.5
     - mkvec3 0 0 (-1))%V
  = mkvec3 0 0 1 /\
  ray_color (mkray (mkvec3 0 0 0) (mkvec3 0 0 (-1))) = mkvec3 0.5 0.5 1.
Proof.
  split; [ exact scenario_A_hit | ].
  split; [ exact scenario_A_normal | exact scenario_A_color ].
Qed.

(** C6 (amended): over exact real arithmetic, a ray that starts strictly
    inside the fixed sphere ([|origin - center| < 0.5]) with a non-zero
    direction gets a negative near root from [hit_sphere], fails the
    [t > 0] test, and is coloured by the sky gradient
    [(1-a)*(1,1,1) + a*(0.5,0.7,1.0)] with
    [a = 0.5*(unit(direction).y + 1)]. *)
Theorem ray_color_origin_inside_sphere (r : ray) :
  length (origin r - mkvec3 0 0 (-1))%V < 0.5 ->
  direction r <> mkvec3 0 0 0 ->
  hit_sphere (mkvec3 0 0 (-1)) 0.5 r
  = near_root (mkvec3 0 0 (-1)) 0.5 r /\
  hit_sphere (mkvec3 0 0 (-1)) 0.5 r < 0 /\
  ray_color r =
  (let a := 0.5 * (y (unit_vector (direction r)) + 1) in
   ((1 - a) * mkvec3 1 1 1 + a * mkvec3 0.5 0.7 1)%V).
Proof.
  intros Hin Hdir.
  assert (Ha : 0 < quad_a r) by (apply length_squared_pos, Hdir).
  pose proof (inside_quad_c_neg _ _ _ Hin) as Hc.
  destruct (near_root_negative _ _ _ Ha Hc) as [Hd Hneg].
  assert (Hh : hit_sphere (mkvec3 0 0 (-1)) 0.5 r
               = near_root (mkvec3 0 0 (-1)) 0.5 r)
    by (apply hit_sphere_root; lra).
  split; [ exact Hh | ].
  split; [ rewrite Hh; exact Hneg | ].
  apply ray_color_miss.
  change sphere_center with (mkvec3 0 0 (-1)).
  change sphere_radius with 0.5.
  rewrite Hh. lra.
Qed.

Lemma ray_color_origin_inside_sphere_witness :
  length (origin inside_ray - mkvec3 0 0 (-1))%V < 0.5 /\
  direction inside_ray <> mkvec3 0 0 0 /\
  ray_color inside_ray = mkvec3 0.5 0.7 1.
Proof.
  assert (Hin : length (origin inside_ray - mkvec3 0 0 (-1))%V < 0.5).
  { unfold length.
    replace (length_squared (origin inside_ray - mkvec3 0 0 (-1))%V)
      with 0 by (unfold length_squared; simpl; lra).
    rewrite sqrt_0. lra. }
  assert (Hdir : direction inside_ray <> mkvec3 0 0 0).
  { apply mkvec3_neq_zero. right; left. simpl. lra. }
  split; [ exact Hin | ]. split; [ exact Hdir | ].
  destruct (ray_color_origin_inside_sphere inside_ray Hin Hdir)
    as (_ & _ & Hc).
  rewrite Hc. cbv zeta.
  assert (Hu : unit_vector (direction inside_ray) = mkvec3 0 1 0).
  { apply unit_vector_of_unit. unfold length_squared; simpl. lra. }
  rewrite Hu. apply vec3_eq; simpl; lra.
Defined.

(* ================================================================= *)
(** ** Quantisation *)

Lemma clamp_bounds (v lo hi : R) : lo <= hi -> lo <= clamp v lo hi <= hi.
Proof.
  intros H. unfold clamp.
  destruct (Rlt_dec v lo); [ lra | ].
  destruct (Rlt_dec hi v); lra.
Qed.


Lemma Rtrunc_nonneg (r : R) : 0 <= r -> Rtrunc r = Int_part r.
Proof.
  intros H. unfold Rtrunc. destruct (Rle_dec 0 r); [ reflexivity | lra ].
Qed.

(** The integer part of a real in [[0, 256)] is a byte. *)
Lemma Int_part_byte (r : R) : 0 <= r < 256 -> (0 <= Int_part r <= 255)%Z.
Proof.
  intros [H0 H1].
  destruct (base_Int_part r) as [Hle Hgt].
  split.
  - assert (H : (-1 < Int_part r)%Z) by (apply lt_IZR; lra). lia.
  - assert (H : (Int_part r < 256)%Z) by (apply lt_IZR; lra). lia.
Qed.

Lemma to_uchar_byte (r : R) :
  0 <= r < 256 ->
  to_uchar r = Some (Rtrunc r) /\ (0 <= Rtrunc r <= 255)%Z.
Proof.
  intros H. unfold to_uchar. cbv zeta.
  rewrite Rtrunc_nonneg by lra.
  destruct (Int_part_byte r H) as [Hlo Hhi].
  apply Z.leb_le in Hlo as Hlo'. apply Z.leb_le in Hhi as Hhi'.
  rewrite Hlo', Hhi'. simpl. auto.
Qed.

Lemma scaled_clamp_range (v : R) : 0 <= 256 * clamp v 0 0.999 < 256.
Proof.
  pose proof (clamp_bounds v 0 0.999) as H. lra.
Qed.



Lemma channel_byte_stored (v : R) : stored_byte (channel_byte v).
Proof.
  unfold stored_byte, channel_byte.
  destruct (to_uchar_byte _ (scaled_clamp_range v)) as [E Hr].
  exists (Rtrunc (256 * clamp v 0 0.999)). split; assumption.
Qed.





(* ================================================================= *)
(** ** Orthonormal frames *)

Lemma dot_comm (u v : vec3) : dot u v = dot v u.
Proof. unfold dot. ring. Qed.

Lemma dot_cross_left (u v : vec3) : dot u (cross u v) = 0.
Proof. unfold dot, cross; simpl. ring. Qed.

Lemma dot_cross_right (u v : vec3) : dot v (cross u v) = 0.
Proof. unfold dot, cross; simpl. ring. Qed.

(** Lagrange's identity. *)
Lemma length_squared_cross (u v : vec3) :
  length_squared (cross u v)
  = length_squared u * length_squared v - dot u v * dot u v.
Proof. unfold length_squared, dot, cross; simpl. ring. Qed.

Lemma dot_unit_vector_right (u v : vec3) :
  dot u (unit_vector v) = dot u v / length v.
Proof. unfold dot, unit_vector, vdiv; simpl. unfold Rdiv. ring. Qed.

Lemma length_neq_0 (v : vec3) : v <> mkvec3 0 0 0 -> length v <> 0.
Proof. intros H. apply Rgt_not_eq, length_pos, H. Qed.

Lemma length_squared_neq_0 (v : vec3) :
  length_squared v <> 0 -> v <> mkvec3 0 0 0.
Proof.
  intros H E. apply H. rewrite E. unfold length_squared; simpl. ring.
Qed.

(** The frame [update_camera_vectors] builds from a unit [front] and a
    reference vector not parallel to it. *)
Lemma orthonormal_frame (f w : vec3) :
  length_squared f = 1 ->
  cross f w <> mkvec3 0 0 0 ->
  orthonormal f
              (unit_vector (cross f w))
              (unit_vector (cross (unit_vector (cross f w)) f)).
Proof.
  intros Hf Hw.
  pose proof (length_neq_0 _ Hw) as Hl.
  set (r := unit_vector (cross f w)).
  assert (Hr : length_squared r = 1)
    by (apply unit_vector_length_squared, Hl).
  assert (Hfr : dot f r = 0).
  { unfold r. rewrite dot_unit_vector_right, dot_cross_left.
    unfold Rdiv. ring. }
  assert (Hu : length_squared (cross r f) = 1).
  { rewrite length_squared_cross, Hr, Hf, (dot_comm r f), Hfr. ring. }
  rewrite (unit_vector_of_unit _ Hu).
  unfold orthonormal. repeat split.
  - exact Hfr.
  - apply dot_cross_right.
  - apply dot_cross_left.
  - apply length_of_unit_square, Hf.
  - apply length_of_unit_square, Hr.
  - apply length_of_unit_square, Hu.
Qed.

(* ================================================================= *)
(** ** Angles *)

Lemma PI_lower_bound : 3.13 < PI.
Proof.
  pose proof (PI_2_3_7_ineq 0) as [H _].
  unfold sum_f_R0, tg_alt, PI_2_3_7_tg, Ratan_seq in H.
  simpl in H. lra.
Qed.

Lemma M_PI_bounds : 3.14 < M_PI < 3.15.
Proof. unfold M_PI. lra. Qed.

(** A pitch within the clamp is strictly inside the quarter turn. *)
Lemma radians_clamped (p : R) :
  -89 <= p <= 89 -> - (PI / 2) < radians p < PI / 2.
Proof.
  intros [Hlo Hhi]. unfold radians.
  pose proof PI_lower_bound. pose proof M_PI_bounds.
  split; nra.
Qed.

Lemma cos_radians_clamped (p : R) : -89 <= p <= 89 -> 0 < cos (radians p).
Proof.
  intros H. destruct (radians_clamped p H). apply cos_gt_0; assumption.
Qed.

Lemma sin_cos_squares (a : R) : sin a * sin a + cos a * cos a = 1.
Proof. exact (sin2_cos2 a). Qed.

Lemma sin_radians_clamped (p : R) :
  -89 <= p <= 89 ->
  Rabs (sin (radians p)) <= sin (radians 89) /\ sin (radians 89) < 1
  /\ Rabs (sin (radians p)) < 1.
Proof.
  intros Hp.
  assert (H89 : -89 <= 89 <= 89) by lra.
  destruct (radians_clamped p Hp) as [Hlo Hhi].
  destruct (radians_clamped 89 H89) as [Hlo' Hhi'].
  assert (Hs : sin (radians 89) < 1).
  { pose proof (cos_radians_clamped 89 H89) as Hc.
    pose proof (sin_cos_squares (radians 89)). nra. }
  assert (Hle : Rabs (sin (radians p)) <= sin (radians 89)).
  { unfold Rabs. destruct (Rcase_abs _).
    - rewrite <- sin_neg. apply sin_incr_1; try lra.
      unfold radians, M_PI. lra.
    - apply sin_incr_1; try lra. unfold radians, M_PI. lra. }
  repeat split; lra.
Qed.

(* ================================================================= *)
(** ** The recomputation of the derived state *)

(** The vector [update_camera_vectors] builds from yaw and pitch before
    normalising it has length 1. *)
Lemma spherical_unit (a b : R) :
  length_squared (mkvec3 (cos a * cos b) (sin b) (sin a * cos b)) = 1.
Proof.
  unfold length_squared; simpl.
  pose proof (sin_cos_squares a) as Ha.
  pose proof (sin_cos_squares b) as Hb.
  transitivity ((sin a * sin a + cos a * cos a) * (cos b * cos b)
                + sin b * sin b); [ ring | ].
  rewrite Ha. lra.
Qed.

Section Recompute.

Variable c : Camera.

Local Abbreviation c' := (exec update_camera_vectors c).

(** The members [update_camera_vectors] does not assign. *)
Lemma update_keeps_inputs :
  image_width_ c' = image_width_ c /\
  image_height_ c' = image_height_ c /\
  camera_center_ c' = camera_center_ c /\
  focal_length_ c' = focal_length_ c /\
  yaw_ c' = yaw_ c /\
  pitch_ c' = pitch_ c /\
  world_up_ c' = world_up_ c /\
  viewport_height_ c' = viewport_height_ c.
Proof. repeat split. Qed.

Lemma update_front :
  front_ c' =
  mkvec3 (cos (radians (yaw_ c)) * cos (radians (pitch_ c)))
         (sin (radians (pitch_ c)))
         (sin (radians (yaw_ c)) * cos (radians (pitch_ c))).
Proof.
  change (front_ c') with
    (unit_vector
       (mkvec3 (cos (radians (yaw_ c)) * cos (radians (pitch_ c)))
               (sin (radians (pitch_ c)))
               (sin (radians (yaw_ c)) * cos (radians (pitch_ c))))).
  apply unit_vector_of_unit, spherical_unit.
Qed.

Lemma update_front_unit : length_squared (front_ c') = 1.
Proof. rewrite update_front. apply spherical_unit. Qed.

Lemma update_right :
  camera_right_ c' = unit_vector (cross (front_ c') (world_up_ c')).
Proof. reflexivity. Qed.

Lemma update_up :
  camera_up_ c' = unit_vector (cross (camera_right_ c') (front_ c')).
Proof. reflexivity. Qed.

Lemma update_pixel_deltas :
  pixel_delta_u_ c' = (viewport_u_ c' / IZR (image_width_ c))%V /\
  pixel_delta_v_ c' = (viewport_v_ c' / IZR (image_height_ c))%V /\
  viewport_u_ c' = (viewport_width_ c' * camera_right_ c')%V /\
  viewport_v_ c' = (viewport_height_ c * - camera_up_ c')%V /\
  viewport_width_ c'
  = viewport_height_ c * (IZR (image_width_ c) / IZR (image_height_ c)).
Proof. repeat split. Qed.

Lemma update_pixel00 :
  pixel00_loc_ c' =
  (camera_center_ c + vscale_r (front_ c') (focal_length_ c)
   - viewport_u_ c' / 2 - viewport_v_ c' / 2
   + 0.5 * (pixel_delta_u_ c' + pixel_delta_v_ c'))%V.
Proof. reflexivity. Qed.

End Recompute.

(** [update_camera_vectors] reads only the members it does not assign: two
    cameras that agree on those are recomputed to the same state. *)
Lemma update_camera_vectors_derived (c1 c2 : Camera) :
  image_width_ c1 = image_width_ c2 ->
  image_height_ c1 = image_height_ c2 ->
  camera_center_ c1 = camera_center_ c2 ->
  focal_length_ c1 = focal_length_ c2 ->
  yaw_ c1 = yaw_ c2 ->
  pitch_ c1 = pitch_ c2 ->
  world_up_ c1 = world_up_ c2 ->
  viewport_height_ c1 = viewport_height_ c2 ->
  exec update_camera_vectors c1 = exec update_camera_vectors c2.
Proof.
  destruct c1, c2; simpl. intros; subst. reflexivity.
Qed.

Lemma update_idempotent (c : Camera) :
  up_to_date (exec update_camera_vectors c).
Proof.
  unfold up_to_date. apply update_camera_vectors_derived; reflexivity.
Qed.

(** Recomputing after the position alone changed: the basis and the pixel
    steps are the same, the first pixel is carried along with the
    position. *)
Lemma update_after_reposition (c : Camera) (p : point3) :
  let c1 := exec update_camera_vectors c in
  let c2 := exec update_camera_vectors (set_camera_center_ p c) in
  yaw_ c2 = yaw_ c1 /\
  pitch_ c2 = pitch_ c1 /\
  front_ c2 = front_ c1 /\
  camera_right_ c2 = camera_right_ c1 /\
  camera_up_ c2 = camera_up_ c1 /\
  pixel_delta_u_ c2 = pixel_delta_u_ c1 /\
  pixel_delta_v_ c2 = pixel_delta_v_ c1 /\
  camera_center_ c2 = p /\
  pixel00_loc_ c2 = (pixel00_loc_ c1 + (p - camera_center_ c))%V.
Proof.
  intros c1 c2. repeat split.
  unfold c1, c2. rewrite !update_pixel00.
  change (front_ (exec update_camera_vectors (set_camera_center_ p c)))
    with (front_ (exec update_camera_vectors c)).
  change (viewport_u_ (exec update_camera_vectors (set_camera_center_ p c)))
    with (viewport_u_ (exec update_camera_vectors c)).
  change (viewport_v_ (exec update_camera_vectors (set_camera_center_ p c)))
    with (viewport_v_ (exec update_camera_vectors c)).
  change (pixel_delta_u_
            (exec update_camera_vectors (set_camera_center_ p c)))
    with (pixel_delta_u_ (exec update_camera_vectors c)).
  change (pixel_delta_v_
            (exec update_camera_vectors (set_camera_center_ p c)))
    with (pixel_delta_v_ (exec update_camera_vectors c)).
  change (camera_center_ (set_camera_center_ p c)) with p.
  change (focal_length_ (set_camera_center_ p c)) with (focal_length_ c).
  generalize (front_ (exec update_camera_vectors c))
             (viewport_u_ (exec update_camera_vectors c))
             (viewport_v_ (exec update_camera_vectors c))
             (pixel_delta_u_ (exec update_camera_vectors c))
             (pixel_delta_v_ (exec update_camera_vectors c)).
  intros f u v du dv.
  vec_ring.
Qed.

(* ================================================================= *)
(** ** The mutators *)

Lemma exec_bind {A B : Type} (m : method A) (k : A -> method B)
    (c : Camera) :
  exec (bind m k) c = exec (k (result m c)) (exec m c).
Proof. unfold exec, result, bind. destruct (m c). reflexivity. Qed.

Lemma move_exec (offset : vec3) (c : Camera) :
  exec (move offset) c
  = exec update_camera_vectors
      (set_camera_center_ (camera_center_ c + offset)%V c).
Proof. reflexivity. Qed.

Lemma set_position_exec (p : point3) (c : Camera) :
  exec (set_position p) c = set_camera_center_ p c.
Proof. reflexivity. Qed.

(** [rotate] recomputes from a state whose yaw is advanced, whose pitch is
    advanced and then clamped, and whose other inputs are those of [c]. *)
Lemma rotate_exec (delta_yaw delta_pitch : R) (c : Camera) :
  exists p : R,
    exec (rotate delta_yaw delta_pitch) c
    = exec update_camera_vectors
        (set_pitch_ p (set_yaw_ (yaw_ c + delta_yaw) c)) /\
    -89 <= p <= 89 /\
    (pitch_ c + delta_pitch > 89 -> p = 89) /\
    (pitch_ c + delta_pitch < -89 -> p = -89) /\
    (-89 <= pitch_ c + delta_pitch <= 89 -> p = pitch_ c + delta_pitch).
Proof.
  unfold rotate, exec, bind, modify, gets.
  cbn [pitch_ set_pitch_ set_yaw_ fst snd].
  destruct (Rgt_dec (pitch_ c + delta_pitch) 89) as [Hhi | Hhi].
  - cbn [pitch_ set_pitch_].
    destruct (Rlt_dec 89 (-89)) as [Habs | _]; [ lra | ].
    exists 89. split; [ reflexivity | ]. repeat split; lra.
  - unfold ret at 1. cbn [pitch_ set_pitch_].
    destruct (Rlt_dec (pitch_ c + delta_pitch) (-89)) as [Hlo | Hlo].
    + exists (-89). split; [ reflexivity | ]. repeat split; lra.
    + exists (pitch_ c + delta_pitch).
      split; [ reflexivity | ]. repeat split; lra.
Qed.

(* ================================================================= *)
(** ** The pose invariant *)

(** With the reference vector (0, 1, 0), the square of the length of
    [cross(front, world_up)] is the square of the cosine of the pitch. *)
Lemma cross_front_world_up (c : Camera) :
  world_up_ c = mkvec3 0 1 0 ->
  let c' := exec update_camera_vectors c in
  dot (front_ c') (world_up_ c') = sin (radians (pitch_ c)) /\
  length_squared (cross (front_ c') (world_up_ c'))
  = cos (radians (pitch_ c)) * cos (radians (pitch_ c)).
Proof.
  intros Hw c'.
  pose proof (update_front_unit c) as Hf. fold c' in Hf.
  assert (Hd : dot (front_ c') (world_up_ c') = sin (radians (pitch_ c))).
  { unfold c'. rewrite update_front.
    change (world_up_ (exec update_camera_vectors c)) with (world_up_ c).
    rewrite Hw. unfold dot; simpl. ring. }
  split; [ exact Hd | ].
  rewrite length_squared_cross, Hf, Hd.
  change (world_up_ c') with (world_up_ c). rewrite Hw.
  pose proof (sin_cos_squares (radians (pitch_ c))) as Hsc.
  unfold length_squared; simpl. lra.
Qed.

Lemma cross_front_world_up_nonzero (c : Camera) :
  pose_ok c ->
  let c' := exec update_camera_vectors c in
  cross (front_ c') (world_up_ c') <> mkvec3 0 0 0.
Proof.
  intros [Hw Hp] c'.
  destruct (cross_front_world_up c Hw) as [_ Hl]. fold c' in Hl.
  apply length_squared_neq_0. rewrite Hl.
  pose proof (cos_radians_clamped _ Hp). nra.
Qed.

(** Recomputing from a good pose gives an orthonormal basis. *)
Lemma update_orthonormal (c : Camera) :
  pose_ok c ->
  let c' := exec update_camera_vectors c in
  pose_ok c' /\ orthonormal (front_ c') (camera_right_ c') (camera_up_ c').
Proof.
  intros Hok c'. split; [ exact Hok | ].
  unfold c'. rewrite update_up, update_right.
  apply orthonormal_frame.
  - apply update_front_unit.
  - apply cross_front_world_up_nonzero, Hok.
Qed.

(** From a good pose, each of the three normalisations of
    [update_camera_vectors] divides by a non-zero length. *)
Lemma update_normalisations_defined (c : Camera) :
  pose_ok c ->
  let c' := exec update_camera_vectors c in
  length (mkvec3 (cos (radians (yaw_ c)) * cos (radians (pitch_ c)))
                 (sin (radians (pitch_ c)))
                 (sin (radians (yaw_ c)) * cos (radians (pitch_ c)))) = 1 /\
  length (cross (front_ c') (world_up_ c')) <> 0 /\
  length (cross (camera_right_ c') (front_ c')) = 1.
Proof.
  intros Hok c'.
  destruct (update_orthonormal c Hok) as (_ & Hon). fold c' in Hon.
  destruct Hon as (Hfr & _ & _ & Hf & Hr & _).
  split; [ apply length_of_unit_square, spherical_unit | ].
  split; [ apply length_neq_0, cross_front_world_up_nonzero, Hok | ].
  apply length_of_unit_square.
  rewrite length_squared_cross, <- !length_sqr, Hf, Hr, (dot_comm _ _), Hfr.
  ring.
Qed.

Lemma new_Camera_pose_ok (w h : Z) (pos : point3) (f : R) :
  pose_ok (new_Camera w h pos f).
Proof. split; [ reflexivity | simpl; lra ]. Qed.

Lemma new_Camera_orthonormal (w h : Z) (pos : point3) (f : R) :
  let c := new_Camera w h pos f in
  orthonormal (front_ c) (camera_right_ c) (camera_up_ c).
Proof.
  apply update_orthonormal. split; [ reflexivity | simpl; lra ].
Qed.

Lemma perform_pose_ok (k : call) (c : Camera) :
  pose_ok c ->
  let c' := exec (perform k) c in
  pose_ok c' /\ orthonormal (front_ c') (camera_right_ c') (camera_up_ c')
  /\ up_to_date c'.
Proof.
  intros Hok. destruct k as [offset | dy dp]; cbn [perform].
  - rewrite move_exec.
    split; [ | split ];
      [ | | apply update_idempotent ];
      apply update_orthonormal; exact Hok.
  - destruct (rotate_exec dy dp c) as (p & -> & Hp & _).
    assert (Hok' : pose_ok (set_pitch_ p (set_yaw_ (yaw_ c + dy) c))).
    { destruct Hok as [Hw _]. split; [ exact Hw | exact Hp ]. }
    split; [ | split ];
      [ | | apply update_idempotent ];
      apply update_orthonormal; exact Hok'.
Qed.

Lemma perform_all_nil (c : Camera) : exec (perform_all []) c = c.
Proof. reflexivity. Qed.

Lemma perform_all_cons (k : call) (ks : list call) (c : Camera) :
  exec (perform_all (k :: ks)) c = exec (perform_all ks) (exec (perform k) c).
Proof. cbn [perform_all]. apply exec_bind. Qed.

(** Every state reached from a good, up-to-date one by [move] and [rotate]
    calls is good and up to date. *)
Lemma perform_all_invariant (ks : list call) :
  forall c : Camera,
    pose_ok c ->
    orthonormal (front_ c) (camera_right_ c) (camera_up_ c) ->
    up_to_date c ->
    let c' := exec (perform_all ks) c in
    pose_ok c' /\ orthonormal (front_ c') (camera_right_ c') (camera_up_ c')
    /\ up_to_date c'.
Proof.
  induction ks as [ | k ks IH ]; intros c Hok Hon Hup.
  - rewrite perform_all_nil. auto.
  - rewrite perform_all_cons.
    destruct (perform_pose_ok k c Hok) as (Hok' & Hon' & Hup').
    apply IH; assumption.
Qed.

Lemma reachable_invariant (w h : Z) (pos : point3) (f : R)
    (ks : list call) :
  let c := exec (perform_all ks) (new_Camera w h pos f) in
  pose_ok c /\ orthonormal (front_ c) (camera_right_ c) (camera_up_ c)
  /\ up_to_date c.
Proof.
  apply perform_all_invariant.
  - apply new_Camera_pose_ok.
  - apply new_Camera_orthonormal.
  - apply update_idempotent.
Qed.

(* ================================================================= *)
(** ** Moving the camera *)

Lemma get_ray_result (c : Camera) (pixel_x pixel_y : Z) :
  result (get_ray pixel_x pixel_y) c
  = mkray (camera_center_ c)
          ((pixel00_loc_ c + IZR pixel_x * pixel_delta_u_ c
                           + IZR pixel_y * pixel_delta_v_ c)
           - camera_center_ c)%V.
Proof. reflexivity. Qed.

(** What [move] leaves behind, relative to a recomputation of the state it
    was called on. *)
Lemma move_recomputed (c : Camera) (offset : vec3) :
  let c1 := exec update_camera_vectors c in
  let c' := exec (move offset) c in
  yaw_ c' = yaw_ c1 /\
  pitch_ c' = pitch_ c1 /\
  front_ c' = front_ c1 /\
  camera_right_ c' = camera_right_ c1 /\
  camera_up_ c' = camera_up_ c1 /\
  pixel_delta_u_ c' = pixel_delta_u_ c1 /\
  pixel_delta_v_ c' = pixel_delta_v_ c1 /\
  camera_center_ c' = (camera_center_ c + offset)%V /\
  pixel00_loc_ c' = (pixel00_loc_ c1 + offset)%V.
Proof.
  intros c1 c'. unfold c'. rewrite move_exec.
  destruct (update_after_reposition c (camera_center_ c + offset)%V)
    as (Hy & Hp & Hf & Hr & Hu & Hdu & Hdv & Hc & H00).
  fold c1 in Hy, Hp, Hf, Hr, Hu, Hdu, Hdv, H00.
  repeat split; try assumption.
  rewrite H00. vec_ring.
Qed.

(** A [move] that follows a [set_position] on an up-to-date camera: the
    first pixel and the direction of every ray are off by the displacement
    [set_position] made. *)
Lemma move_following_set_position (c0 : Camera) (p : point3) (offset : vec3)
    (pixel_x pixel_y : Z) :
  up_to_date c0 ->
  let c := exec (set_position p) c0 in
  let c' := exec (move offset) c in
  pixel00_loc_ c'
  = (pixel00_loc_ c + offset + (p - camera_center_ c0))%V /\
  direction (result (get_ray pixel_x pixel_y) c')
  = (direction (result (get_ray pixel_x pixel_y) c)
     + (p - camera_center_ c0))%V.
Proof.
  intros Hup c c'.
  destruct (move_recomputed c offset)
    as (_ & _ & _ & _ & _ & Hdu & Hdv & Hc & H00).
  fold c' in Hdu, Hdv, Hc, H00.
  destruct (update_after_reposition c0 p)
    as (_ & _ & _ & _ & _ & Hdu1 & Hdv1 & _ & H001).
  unfold up_to_date in Hup. rewrite Hup in Hdu1, Hdv1, H001.
  change (set_camera_center_ p c0) with c in Hdu1, Hdv1, H001.
  rewrite Hdu1 in Hdu. rewrite Hdv1 in Hdv. rewrite H001 in H00.
  assert (E00 : pixel00_loc_ c'
                = (pixel00_loc_ c + offset + (p - camera_center_ c0))%V).
  { rewrite H00. change (pixel00_loc_ c) with (pixel00_loc_ c0).
    vec_ring. }
  split; [ exact E00 | ].
  rewrite !get_ray_result. cbn [direction].
  rewrite E00, Hdu, Hdv, Hc.
  change (pixel_delta_u_ c) with (pixel_delta_u_ c0).
  change (pixel_delta_v_ c) with (pixel_delta_v_ c0).
  change (camera_center_ c) with p.
  vec_ring.
Qed.

(* ================================================================= *)
(** ** The camera's contract *)

(** C1: in every camera state reached by construction followed by any
    sequence of [move] and [rotate] calls, the basis vectors [front_],
    [camera_right_] and [camera_up_] are pairwise orthogonal (each dot
    product is 0) and each has length 1. *)
Theorem camera_basis_orthonormal (image_width image_height : Z)
    (position : point3) (focal_length : R) (ks : list call) :
  let c := exec (perform_all ks)
             (new_Camera image_width image_height position focal_length) in
  dot (front_ c) (camera_right_ c) = 0 /\
  dot (front_ c) (camera_up_ c) = 0 /\
  dot (camera_right_ c) (camera_up_ c) = 0 /\
  length (front_ c) = 1 /\
  length (camera_right_ c) = 1 /\
  length (camera_up_ c) = 1.
Proof.
  intros c.
  destruct (reachable_invariant image_width image_height position
              focal_length ks) as (_ & Hon & _).
  exact Hon.
Qed.

(** C2: for every sequence of [rotate] calls on a freshly constructed
    camera (pitch 0), the pitch after each call (after the first [n] calls,
    for every [n]) lies in [[-89, 89]].  A single [rotate(0, 200)] leaves
    the pitch at exactly 89. *)
Theorem rotate_pitch_clamped (image_width image_height : Z)
    (position : point3) (focal_length : R) (deltas : list (R * R)) :
  let camera := new_Camera image_width image_height position focal_length in
  let calls := map (fun d => Rotate (fst d) (snd d)) deltas in
  (forall n : nat,
     -89 <= pitch_ (exec (perform_all (firstn n calls)) camera) <= 89) /\
  -89 <= pitch_ (exec (perform_all calls) camera) <= 89 /\
  pitch_ camera = 0 /\
  pitch_ (exec (rotate 0 200) camera) = 89.
Proof.
  intros camera calls. split; [ | split; [ | split ] ].
  - intros n.
    destruct (reachable_invariant image_width image_height position
                focal_length (firstn n calls)) as ((_ & Hp) & _).
    exact Hp.
  - destruct (reachable_invariant image_width image_height position
                focal_length calls) as ((_ & Hp) & _).
    exact Hp.
  - reflexivity.
  - destruct (rotate_exec 0 200 camera) as (p & -> & _ & Hhi & _).
    change (pitch_ (exec update_camera_vectors
                      (set_pitch_ p (set_yaw_ (yaw_ camera + 0) camera))))
      with p.
    apply Hhi. change (pitch_ camera) with 0. lra.
Qed.

(** C4: for every camera state and every pair of integers, inside the image
    or not, [get_ray] returns the ray whose origin is the camera position
    and whose direction is
    [(pixel00_loc_ + pixel_x * pixel_delta_u_ + pixel_y * pixel_delta_v_)
     - camera_center_], and leaves the camera as it was. *)
Theorem get_ray_reads_only (c : Camera) (pixel_x pixel_y : Z) :
  origin (result (get_ray pixel_x pixel_y) c) = camera_center_ c /\
  direction (result (get_ray pixel_x pixel_y) c)
  = ((pixel00_loc_ c + IZR pixel_x * pixel_delta_u_ c
                     + IZR pixel_y * pixel_delta_v_ c)
     - camera_center_ c)%V /\
  exec (get_ray pixel_x pixel_y) c = c.
Proof. repeat split. Qed.

(** C5: [set_position(p)] overwrites the position with [p] and changes no
    other member.  The derived state is not recomputed: a recomputation
    would carry [pixel00_loc_] along by [p - old position], the stored value
    stays, so whenever [p] differs from the old position a [pixel00_loc_]
    that was up to date no longer is. *)
Theorem set_position_overwrites_position_only (c : Camera) (p : point3) :
  let c' := exec (set_position p) c in
  camera_center_ c' = p /\
  (image_width_ c' = image_width_ c /\
   image_height_ c' = image_height_ c /\
   focal_length_ c' = focal_length_ c /\
   yaw_ c' = yaw_ c /\
   pitch_ c' = pitch_ c /\
   front_ c' = front_ c /\
   camera_right_ c' = camera_right_ c /\
   camera_up_ c' = camera_up_ c /\
   world_up_ c' = world_up_ c /\
   viewport_height_ c' = viewport_height_ c /\
   viewport_width_ c' = viewport_width_ c /\
   viewport_u_ c' = viewport_u_ c /\
   viewport_v_ c' = viewport_v_ c /\
   pixel_delta_u_ c' = pixel_delta_u_ c /\
   pixel_delta_v_ c' = pixel_delta_v_ c /\
   viewport_upper_left_ c' = viewport_upper_left_ c /\
   pixel00_loc_ c' = pixel00_loc_ c) /\
  pixel00_loc_ (exec update_camera_vectors c')
  = (pixel00_loc_ (exec update_camera_vectors c)
     + (p - camera_center_ c))%V /\
  (p <> camera_center_ c ->
   pixel00_loc_ (exec update_camera_vectors c')
   <> pixel00_loc_ (exec update_camera_vectors c)) /\
  (p <> camera_center_ c ->
   pixel00_loc_ (exec update_camera_vectors c) = pixel00_loc_ c ->
   pixel00_loc_ (exec update_camera_vectors c') <> pixel00_loc_ c').
Proof.
  intros c'.
  assert (Hshift : pixel00_loc_ (exec update_camera_vectors c')
                   = (pixel00_loc_ (exec update_camera_vectors c)
                      + (p - camera_center_ c))%V).
  { unfold c'. rewrite set_position_exec.
    apply (update_after_reposition c p). }
  assert (Hne : p <> camera_center_ c ->
                pixel00_loc_ (exec update_camera_vectors c')
                <> pixel00_loc_ (exec update_camera_vectors c)).
  { intros Hp E. apply Hp. rewrite Hshift in E.
    apply (f_equal x) in E as Ex. apply (f_equal y) in E as Ey.
    apply (f_equal z) in E as Ez. simpl in Ex, Ey, Ez.
    apply vec3_eq; lra. }
  split; [ reflexivity | ].
  split; [ repeat split | ].
  split; [ exact Hshift | ].
  split; [ exact Hne | ].
  intros Hp Hfresh.
  change (pixel00_loc_ c') with (pixel00_loc_ c).
  rewrite <- Hfresh. apply Hne, Hp.
Qed.

(** C8: for every pitch in the clamped range [[-89, 89]] and every yaw, the
    recomputed [front_] satisfies [|front_ . world_up_| < 1] strictly
    ([|sin(pitch)| <= sin(89 degrees) < 1]), so [cross(front_, world_up_)]
    is not the zero vector and the normalisation that produces
    [camera_right_] divides by a non-zero length. *)
Theorem pitch_clamp_keeps_right_defined (c : Camera) :
  world_up_ c = mkvec3 0 1 0 ->
  -89 <= pitch_ c <= 89 ->
  let c' := exec update_camera_vectors c in
  Rabs (dot (front_ c') (world_up_ c')) < 1 /\
  Rabs (sin (radians (pitch_ c))) <= sin (radians 89) /\
  sin (radians 89) < 1 /\
  cross (front_ c') (world_up_ c') <> mkvec3 0 0 0 /\
  length (cross (front_ c') (world_up_ c')) <> 0 /\
  camera_right_ c' = unit_vector (cross (front_ c') (world_up_ c')) /\
  length (camera_right_ c') = 1.
Proof.
  intros Hw Hp c'.
  destruct (cross_front_world_up c Hw) as [Hd _]. fold c' in Hd.
  destruct (sin_radians_clamped _ Hp) as (Hle & H89 & Hlt).
  pose proof (cross_front_world_up_nonzero c (conj Hw Hp)) as Hnz.
  fold c' in Hnz.
  split; [ rewrite Hd; exact Hlt | ].
  split; [ exact Hle | ].
  split; [ exact H89 | ].
  split; [ exact Hnz | ].
  split; [ apply length_neq_0, Hnz | ].
  split; [ reflexivity | ].
  destruct (update_orthonormal c (conj Hw Hp)) as (_ & Hon).
  apply Hon.
Qed.

Lemma pitch_clamp_keeps_right_defined_witness :
  let c := set_pitch_ 89 (new_Camera 2 1 (mkvec3 0 0 0) 1) in
  world_up_ c = mkvec3 0 1 0 /\
  -89 <= pitch_ c <= 89 /\
  length (cross (front_ (exec update_camera_vectors c))
                (world_up_ (exec update_camera_vectors c))) <> 0.
Proof.
  intros c.
  assert (Hw : world_up_ c = mkvec3 0 1 0) by reflexivity.
  assert (Hp : -89 <= pitch_ c <= 89) by (simpl; lra).
  split; [ exact Hw | ]. split; [ exact Hp | ].
  apply (pitch_clamp_keeps_right_defined c Hw Hp).
Defined.

(** C10, as stated, fails: after [set_position] the stored [pixel00_loc_]
    belongs to the old position; the recomputation in [move] then shifts it
    by more than the offset, and the ray of a pixel changes direction.
    Here the camera is built at the origin, repositioned to (1, 0, 0) by
    [set_position], and moved by (0, 1, 0). *)
Lemma move_after_set_position_not_a_translation :
  let c := exec (set_position (mkvec3 1 0 0))
             (new_Camera 2 1 (mkvec3 0 0 0) 1) in
  let offset := mkvec3 0 1 0 in
  pixel00_loc_ (exec (move offset) c) <> (pixel00_loc_ c + offset)%V /\
  direction (result (get_ray 0 0) (exec (move offset) c))
  <> direction (result (get_ray 0 0) c).
Proof.
  intros c offset.
  assert (Hup : up_to_date (new_Camera 2 1 (mkvec3 0 0 0) 1))
    by apply update_idempotent.
  destruct (move_following_set_position _ (mkvec3 1 0 0) offset 0 0 Hup)
    as [H00 Hdir].
  fold c in H00, Hdir.
  change (camera_center_ (new_Camera 2 1 (mkvec3 0 0 0) 1))
    with (mkvec3 0 0 0) in H00, Hdir.
  split; intros E.
  - rewrite H00 in E. apply (f_equal x) in E. simpl in E. lra.
  - rewrite Hdir in E. apply (f_equal x) in E. simpl in E. lra.
Qed.

(** C10 (amended): for every camera state whose derived members are up to
    date (as after construction, [move] or [rotate], not after
    [set_position]), every offset and every pixel: [move(offset)] leaves
    yaw, pitch, [front_], [camera_right_], [camera_up_], [pixel_delta_u_]
    and [pixel_delta_v_] unchanged, translates [pixel00_loc_] by exactly
    [offset], and [get_ray] afterwards returns a ray of the same direction
    whose origin is the old origin plus [offset]. *)
Theorem move_translates_view (c : Camera) (offset : vec3)
    (pixel_x pixel_y : Z) :
  up_to_date c ->
  let c' := exec (move offset) c in
  yaw_ c' = yaw_ c /\
  pitch_ c' = pitch_ c /\
  front_ c' = front_ c /\
  camera_right_ c' = camera_right_ c /\
  camera_up_ c' = camera_up_ c /\
  pixel_delta_u_ c' = pixel_delta_u_ c /\
  pixel_delta_v_ c' = pixel_delta_v_ c /\
  pixel00_loc_ c' = (pixel00_loc_ c + offset)%V /\
  direction (result (get_ray pixel_x pixel_y) c')
  = direction (result (get_ray pixel_x pixel_y) c) /\
  origin (result (get_ray pixel_x pixel_y) c')
  = (origin (result (get_ray pixel_x pixel_y) c) + offset)%V.
Proof.
  intros Hup c'.
  destruct (move_recomputed c offset)
    as (Hy & Hp & Hf & Hr & Hu & Hdu & Hdv & Hc & H00).
  fold c' in Hy, Hp, Hf, Hr, Hu, Hdu, Hdv, Hc, H00.
  unfold up_to_date in Hup.
  rewrite Hup in Hy, Hp, Hf, Hr, Hu, Hdu, Hdv, H00.
  split; [ exact Hy | ]. split; [ exact Hp | ]. split; [ exact Hf | ].
  split; [ exact Hr | ]. split; [ exact Hu | ]. split; [ exact Hdu | ].
  split; [ exact Hdv | ]. split; [ exact H00 | ].
  rewrite !get_ray_result. cbn [direction origin].
  split; [ | exact Hc ].
  rewrite H00, Hdu, Hdv, Hc. vec_ring.
Qed.

Lemma move_translates_view_witness :
  let c := new_Camera 2 1 (mkvec3 0 0 0) 1 in
  up_to_date c /\
  pixel00_loc_ (exec (move (mkvec3 1 2 3)) c)
  = (pixel00_loc_ c + mkvec3 1 2 3)%V.
Proof.
  intros c.
  assert (Hup : up_to_date c) by apply update_idempotent.
  split; [ exact Hup | ].
  apply (move_translates_view c (mkvec3 1 2 3) 0 0 Hup).
Defined.

(** The states C1 speaks of are up to date, so C10 (amended) applies to
    each of them. *)
Lemma reachable_up_to_date (image_width image_height : Z)
    (position : point3) (focal_length : R) (ks : list call) :
  up_to_date
    (exec (perform_all ks)
       (new_Camera image_width image_height position focal_length)).
Proof.
  destruct (reachable_invariant image_width image_height position
              focal_length ks) as (_ & _ & Hup).
  exact Hup.
Qed.

(* ================================================================= *)
(** ** More on the ray-sphere intersection *)

(** A point of the ray on the sphere solves the quadratic, so the
    discriminant is the square of [2 a t + b]. *)
Lemma on_sphere_discriminant (center : point3) (radius : R) (r : ray)
    (t : R) :
  length_squared (ray_at r t - center)%V = radius * radius ->
  quad_discriminant center radius r
  = (2 * quad_a r * t + quad_b center r)
    * (2 * quad_a r * t + quad_b center r).
Proof.
  intros H. rewrite (ray_at_distance center radius) in H.
  unfold quad_discriminant. nra.
Qed.

Lemma near_root_least (center : point3) (radius : R) (r : ray) (t : R) :
  0 < quad_a r ->
  length_squared (ray_at r t - center)%V = radius * radius ->
  0 <= quad_discriminant center radius r /\
  near_root center radius r <= t.
Proof.
  intros Ha H.
  pose proof (on_sphere_discriminant center radius r t H) as Hd.
  assert (Hd0 : 0 <= quad_discriminant center radius r)
    by (rewrite Hd; apply Rle_0_sqr).
  split; [ exact Hd0 | ].
  unfold near_root.
  pose proof (sqrt_def _ Hd0) as Hs.
  pose proof (sqrt_pos (quad_discriminant center radius r)) as Hp.
  set (s := sqrt (quad_discriminant center radius r)) in *.
  assert (Hge : - quad_b center r - s <= t * (2 * quad_a r)) by nra.
  apply Rmult_le_reg_r with (2 * quad_a r); [ lra | ].
  unfold Rdiv. rewrite Rmult_assoc, Rinv_l by lra. lra.
Qed.

(** X1: over exact real arithmetic, for a ray of non-zero direction whose discriminant is not negative,
    the point [r.at(t)] at the parameter [t] that [hit_sphere] returns lies
    on the sphere: its distance to the centre is the radius (in absolute
    value). *)
Theorem hit_sphere_point_on_sphere (center : point3) (radius : R)
    (r : ray) :
  direction r <> mkvec3 0 0 0 ->
  0 <= quad_discriminant center radius r ->
  length_squared (ray_at r (hit_sphere center radius r) - center)%V
  = radius * radius /\
  length (ray_at r (hit_sphere center radius r) - center)%V = Rabs radius.
Proof.
  intros Hdir Hd.
  pose proof (hit_point_on_sphere center radius r Hdir Hd) as H.
  split; [ exact H | ].
  unfold length. rewrite H. apply sqrt_Rsqr_abs.
Qed.

Lemma hit_sphere_point_on_sphere_witness :
  direction scenario_A_ray <> mkvec3 0 0 0 /\
  0 <= quad_discriminant sphere_center sphere_radius scenario_A_ray /\
  length_squared
    (ray_at scenario_A_ray
       (hit_sphere sphere_center sphere_radius scenario_A_ray)
     - sphere_center)%V
  = sphere_radius * sphere_radius.
Proof.
  assert (H : direction scenario_A_ray <> mkvec3 0 0 0).
  { apply mkvec3_neq_zero. right; right. simpl. lra. }
  assert (Hd : 0 <= quad_discriminant sphere_center sphere_radius
                      scenario_A_ray).
  { destruct scenario_A_coefficients as (_ & _ & ->). lra. }
  split; [ exact H | ]. split; [ exact Hd | ].
  apply (hit_sphere_point_on_sphere sphere_center sphere_radius
           scenario_A_ray H Hd).
Defined.

(** X2: over exact real arithmetic, [hit_sphere] returns the first meeting point of the line with the
    sphere: for a ray of non-zero direction, whenever the point at some
    parameter [t] lies on the sphere, the discriminant is not negative and
    the value [hit_sphere] returns is at most [t]. *)
Theorem hit_sphere_is_first_intersection (center : point3) (radius : R)
    (r : ray) (t : R) :
  direction r <> mkvec3 0 0 0 ->
  length_squared (ray_at r t - center)%V = radius * radius ->
  0 <= quad_discriminant center radius r /\
  hit_sphere center radius r <= t.
Proof.
  intros Hdir H.
  assert (Ha : 0 < quad_a r) by (apply length_squared_pos, Hdir).
  destruct (near_root_least center radius r t Ha H) as [Hd Hle].
  split; [ exact Hd | ].
  rewrite hit_sphere_root by exact Hd. exact Hle.
Qed.

Lemma hit_sphere_is_first_intersection_witness :
  direction scenario_A_ray <> mkvec3 0 0 0 /\
  length_squared (ray_at scenario_A_ray 1.5 - sphere_center)%V
  = sphere_radius * sphere_radius /\
  hit_sphere sphere_center sphere_radius scenario_A_ray <= 1.5.
Proof.
  assert (H : direction scenario_A_ray <> mkvec3 0 0 0).
  { apply mkvec3_neq_zero. right; right. simpl. lra. }
  assert (Hon : length_squared (ray_at scenario_A_ray 1.5 - sphere_center)%V
                = sphere_radius * sphere_radius).
  { unfold length_squared, sphere_radius; simpl. lra. }
  split; [ exact H | ]. split; [ exact Hon | ].
  apply (hit_sphere_is_first_intersection sphere_center sphere_radius
           scenario_A_ray 1.5 H Hon).
Defined.

(** X3: over exact real arithmetic, for a ray of non-zero direction, [hit_sphere] takes its sentinel
    branch exactly when the whole line misses the sphere: the discriminant
    is negative if and only if no point of the line is at distance [radius]
    from the centre, and then the result is [-1]. *)
Theorem hit_sphere_sentinel_iff_line_misses (center : point3) (radius : R)
    (r : ray) :
  direction r <> mkvec3 0 0 0 ->
  (quad_discriminant center radius r < 0 <->
   forall t : R,
     length_squared (ray_at r t - center)%V <> radius * radius) /\
  ((forall t : R,
      length_squared (ray_at r t - center)%V <> radius * radius) ->
   hit_sphere center radius r = -1).
Proof.
  intros Hdir.
  assert (Ha : 0 < quad_a r) by (apply length_squared_pos, Hdir).
  assert (Hiff : quad_discriminant center radius r < 0 <->
                 forall t : R,
                   length_squared (ray_at r t - center)%V
                   <> radius * radius).
  { split.
    - intros Hd t Ht.
      destruct (near_root_least center radius r t Ha Ht) as [Hd0 _]. lra.
    - intros Hmiss.
      destruct (Rlt_dec (quad_discriminant center radius r) 0) as [Hd | Hd];
        [ exact Hd | ].
      exfalso. apply (Hmiss (hit_sphere center radius r)).
      apply hit_point_on_sphere; [ exact Hdir | lra ]. }
  split; [ exact Hiff | ].
  intros Hmiss. apply hit_sphere_miss, Hiff, Hmiss.
Qed.

Lemma hit_sphere_sentinel_iff_line_misses_witness :
  direction scenario_A_ray <> mkvec3 0 0 0 /\
  ~ (forall t : R,
       length_squared (ray_at scenario_A_ray t - sphere_center)%V
       <> sphere_radius * sphere_radius).
Proof.
  assert (H : direction scenario_A_ray <> mkvec3 0 0 0).
  { apply mkvec3_neq_zero. right; right. simpl. lra. }
  split; [ exact H | ].
  intros Hmiss.
  destruct (hit_sphere_sentinel_iff_line_misses sphere_center sphere_radius
              scenario_A_ray H) as [[_ Hneg] _].
  destruct scenario_A_coefficients as (_ & _ & Hd).
  specialize (Hneg Hmiss). rewrite Hd in Hneg. lra.
Defined.

Lemma near_root_numerator (center : point3) (radius : R) (r : ray) :
  0 < quad_a r ->
  near_root center radius r * (2 * quad_a r)
  = - quad_b center r - sqrt (quad_discriminant center radius r).
Proof. intros Ha. unfold near_root. field. lra. Qed.

Lemma near_root_positive_iff (center : point3) (radius : R) (r : ray) :
  0 < quad_a r ->
  0 <= quad_discriminant center radius r ->
  (0 < near_root center radius r <->
   quad_b center r < 0 /\ 0 < quad_c center radius r).
Proof.
  intros Ha Hd.
  pose proof (near_root_numerator center radius r Ha) as Hn.
  pose proof (sqrt_def _ Hd) as Hs.
  pose proof (sqrt_pos (quad_discriminant center radius r)) as Hp.
  set (s := sqrt (quad_discriminant center radius r)) in *.
  set (t := near_root center radius r) in *.
  unfold quad_discriminant in Hs.
  split.
  - intros Ht.
    assert (Hnum : 0 < - quad_b center r - s)
      by (rewrite <- Hn; apply Rmult_lt_0_compat; lra).
    split; [ lra | ].
    assert (Hac : 0 < quad_a r * quad_c center radius r) by nra.
    destruct (Rle_or_lt (quad_c center radius r) 0) as [Hc | Hc];
      [ exfalso; nra | exact Hc ].
  - intros [Hb Hc].
    assert (Hac : 0 < quad_a r * quad_c center radius r)
      by (apply Rmult_lt_0_compat; assumption).
    assert (Hnum : 0 < - quad_b center r - s) by nra.
    rewrite <- Hn in Hnum.
    destruct (Rle_or_lt t 0) as [Ht | Ht]; [ exfalso; nra | exact Ht ].
Qed.

(** X4: over exact real arithmetic, for a ray of non-zero direction, [hit_sphere] returns a positive
    value, the one case in which [ray_color] shades the sphere, exactly when
    the line meets the sphere (discriminant not negative), the origin is
    strictly outside it ([c > 0]) and the direction points towards it
    ([b < 0]); in every other case [ray_color] returns the sky gradient. *)
Theorem sphere_shaded_iff_in_front (r : ray) :
  direction r <> mkvec3 0 0 0 ->
  (hit_sphere sphere_center sphere_radius r > 0 <->
   0 <= quad_discriminant sphere_center sphere_radius r /\
   quad_b sphere_center r < 0 /\
   0 < quad_c sphere_center sphere_radius r) /\
  (~ (0 <= quad_discriminant sphere_center sphere_radius r /\
      quad_b sphere_center r < 0 /\
      0 < quad_c sphere_center sphere_radius r) ->
   ray_color r = sky_gradient (direction r)).
Proof.
  intros Hdir.
  assert (Ha : 0 < quad_a r) by (apply length_squared_pos, Hdir).
  assert (Hiff : hit_sphere sphere_center sphere_radius r > 0 <->
                 0 <= quad_discriminant sphere_center sphere_radius r /\
                 quad_b sphere_center r < 0 /\
                 0 < quad_c sphere_center sphere_radius r).
  { destruct (Rlt_dec (quad_discriminant sphere_center sphere_radius r) 0)
      as [Hd | Hd].
    - rewrite hit_sphere_miss by exact Hd. split; intros H; lra.
    - assert (Hd0 : 0 <= quad_discriminant sphere_center sphere_radius r)
        by lra.
      rewrite hit_sphere_root by exact Hd0.
      pose proof (near_root_positive_iff _ _ _ Ha Hd0) as Hp.
      split.
      + intros Ht. split; [ exact Hd0 | ]. apply Hp. exact Ht.
      + intros (_ & Hbc). apply Hp. exact Hbc. }
  split; [ exact Hiff | ].
  intros Hno. apply ray_color_miss. intros Ht. apply Hno, Hiff, Ht.
Qed.

Lemma sphere_shaded_iff_in_front_witness :
  direction scenario_A_ray <> mkvec3 0 0 0 /\
  quad_b sphere_center scenario_A_ray < 0 /\
  0 < quad_c sphere_center sphere_radius scenario_A_ray.
Proof.
  assert (H : direction scenario_A_ray <> mkvec3 0 0 0).
  { apply mkvec3_neq_zero. right; right. simpl. lra. }
  split; [ exact H | ].
  destruct (sphere_shaded_iff_in_front scenario_A_ray H) as [[Hto _] _].
  apply Hto. rewrite scenario_A_hit. lra.
Defined.

(** Each component of a vector of length 1 lies in [[-1, 1]]. *)
Lemma unit_components (v : vec3) :
  length_squared v = 1 ->
  -1 <= x v <= 1 /\ -1 <= y v <= 1 /\ -1 <= z v <= 1.
Proof. unfold length_squared. intros H. repeat split; nra. Qed.

(** X5: over exact real arithmetic, for every ray of non-zero direction, each channel of the colour
    [ray_color] returns lies in [[0, 1]]; on a hit the normal it shades with
    has length 1. *)
Theorem ray_color_in_unit_cube (r : ray) :
  direction r <> mkvec3 0 0 0 ->
  (0 <= x (ray_color r) <= 1 /\
   0 <= y (ray_color r) <= 1 /\
   0 <= z (ray_color r) <= 1) /\
  (hit_sphere sphere_center sphere_radius r > 0 ->
   length
     (unit_vector
        (ray_at r (hit_sphere sphere_center sphere_radius r)
         - sphere_center)%V) = 1).
Proof.
  intros Hdir.
  assert (Hn : hit_sphere sphere_center sphere_radius r > 0 ->
               length_squared
                 (unit_vector
                    (ray_at r (hit_sphere sphere_center sphere_radius r)
                     - sphere_center)%V) = 1).
  { intros Ht.
    assert (Hd : 0 <= quad_discriminant sphere_center sphere_radius r).
    { destruct (Rlt_dec (quad_discriminant sphere_center sphere_radius r) 0)
        as [Hd | Hd]; [ | lra ].
      rewrite hit_sphere_miss in Ht by exact Hd. lra. }
    pose proof (hit_point_on_sphere _ _ _ Hdir Hd) as Hon.
    apply unit_vector_length_squared, length_neq_0, length_squared_neq_0.
    rewrite Hon. unfold sphere_radius. lra. }
  split.
  - destruct (Rgt_dec (hit_sphere sphere_center sphere_radius r) 0)
      as [Ht | Ht].
    + rewrite ray_color_hit by exact Ht. cbv zeta.
      destruct (unit_components _ (Hn Ht)) as (Hx & Hy & Hz).
      set (N := unit_vector _) in *.
      unfold vscale; cbn [x y z]. repeat split; lra.
    + rewrite ray_color_miss by exact Ht. unfold sky_gradient.
      assert (Hu : length_squared (unit_vector (direction r)) = 1)
        by (apply unit_vector_length_squared, length_neq_0, Hdir).
      destruct (unit_components _ Hu) as (_ & Hy & _).
      set (u := unit_vector _) in *.
      unfold vscale, vadd; cbn [x y z]. repeat split; lra.
  - intros Ht. apply length_of_unit_square, Hn, Ht.
Qed.

Lemma ray_color_in_unit_cube_witness :
  direction scenario_A_ray <> mkvec3 0 0 0 /\
  0 <= x (ray_color scenario_A_ray) <= 1.
Proof.
  assert (H : direction scenario_A_ray <> mkvec3 0 0 0).
  { apply mkvec3_neq_zero. right; right. simpl. lra. }
  split; [ exact H | ].
  apply (ray_color_in_unit_cube scenario_A_ray H).
Defined.

(* ================================================================= *)
(** ** Rescaling the direction of a ray *)

Section Rescale.

Variable r : ray.
Variable k : R.
Hypothesis k_pos : 0 < k.

Local Abbreviation r' := (mkray (origin r) (k * direction r)%V).

Lemma rescale_coefficients (center : point3) (radius : R) :
  quad_a r' = k * k * quad_a r /\
  quad_b center r' = k * quad_b center r /\
  quad_c center radius r' = quad_c center radius r /\
  quad_discriminant center radius r'
  = k * k * quad_discriminant center radius r.
Proof.
  unfold quad_discriminant, quad_c, quad_b, quad_a, dot, length_squared;
    simpl.
  repeat split; ring.
Qed.

Lemma rescale_sqrt (d : R) : 0 <= d -> sqrt (k * k * d) = k * sqrt d.
Proof.
  intros Hd.
  rewrite sqrt_mult; [ | exact (Rle_0_sqr k) | exact Hd ].
  rewrite sqrt_square by lra. reflexivity.
Qed.

Lemma rescale_hit_sphere (center : point3) (radius : R) :
  direction r <> mkvec3 0 0 0 ->
  (quad_discriminant center radius r < 0 ->
   hit_sphere center radius r' = -1) /\
  (0 <= quad_discriminant center radius r ->
   hit_sphere center radius r' = hit_sphere center radius r / k).
Proof.
  intros Hdir.
  assert (Ha : 0 < quad_a r) by (apply length_squared_pos, Hdir).
  destruct (rescale_coefficients center radius) as (Ea & Eb & Ec & Ed).
  assert (Hkk : 0 < k * k) by (apply Rmult_lt_0_compat; exact k_pos).
  split; intros Hd.
  - apply hit_sphere_miss. rewrite Ed. nra.
  - rewrite hit_sphere_root by (rewrite Ed; nra).
    rewrite hit_sphere_root by exact Hd.
    unfold near_root. rewrite Ea, Eb, Ed, rescale_sqrt by exact Hd.
    field. lra.
Qed.

Lemma rescale_unit_vector (v : vec3) :
  v <> mkvec3 0 0 0 -> unit_vector (k * v)%V = unit_vector v.
Proof.
  intros Hv. pose proof (length_pos v Hv) as Hl.
  assert (El : length (k * v)%V = k * length v).
  { unfold length.
    replace (length_squared (k * v)%V) with (k * k * length_squared v)
      by (unfold length_squared; simpl; ring).
    apply rescale_sqrt, length_squared_nonneg. }
  unfold unit_vector. rewrite El.
  apply vec3_eq; simpl; field; lra.
Qed.

Lemma rescale_ray_at (t : R) : ray_at r' (t / k) = ray_at r t.
Proof. unfold ray_at. apply vec3_eq; simpl; field; lra. Qed.

End Rescale.

(** X6: over exact real arithmetic, [ray_color] depends on the direction of a ray only up to a positive
    factor: for every ray of non-zero direction and every [k > 0], the ray
    with the same origin and direction [k * direction] gets the same colour,
    and on a hit the parameter [hit_sphere] returns is divided by [k]. *)
Theorem ray_color_rescale_invariant (r : ray) (k : R) :
  0 < k ->
  direction r <> mkvec3 0 0 0 ->
  ray_color (mkray (origin r) (k * direction r)%V) = ray_color r /\
  (0 <= quad_discriminant sphere_center sphere_radius r ->
   hit_sphere sphere_center sphere_radius
     (mkray (origin r) (k * direction r)%V)
   = hit_sphere sphere_center sphere_radius r / k).
Proof.
  intros Hk Hdir.
  destruct (rescale_hit_sphere r k Hk sphere_center sphere_radius Hdir)
    as [Hmiss Hhit].
  split; [ | exact Hhit ].
  destruct (Rlt_dec (quad_discriminant sphere_center sphere_radius r) 0)
    as [Hd | Hd].
  - rewrite (ray_color_miss r)
      by (rewrite hit_sphere_miss by exact Hd; lra).
    rewrite ray_color_miss by (rewrite Hmiss by exact Hd; lra).
    unfold sky_gradient. cbn [direction].
    rewrite rescale_unit_vector by assumption. reflexivity.
  - assert (Hd0 : 0 <= quad_discriminant sphere_center sphere_radius r)
      by lra.
    specialize (Hhit Hd0).
    set (t := hit_sphere sphere_center sphere_radius r) in *.
    assert (Hinv : 0 < / k) by (apply Rinv_0_lt_compat, Hk).
    destruct (Rgt_dec t 0) as [Ht | Ht].
    + rewrite (ray_color_hit r) by exact Ht.
      rewrite ray_color_hit by (rewrite Hhit; unfold Rdiv; nra).
      cbv zeta. fold t. rewrite Hhit, rescale_ray_at by exact Hk.
      reflexivity.
    + rewrite (ray_color_miss r) by exact Ht.
      rewrite ray_color_miss by (rewrite Hhit; unfold Rdiv; nra).
      unfold sky_gradient. cbn [direction].
      rewrite rescale_unit_vector by assumption. reflexivity.
Qed.

Lemma ray_color_rescale_invariant_witness :
  0 < 2 /\
  direction scenario_A_ray <> mkvec3 0 0 0 /\
  ray_color (mkray (origin scenario_A_ray)
                   (2 * direction scenario_A_ray)%V)
  = ray_color scenario_A_ray.
Proof.
  assert (Hk : 0 < 2) by lra.
  assert (H : direction scenario_A_ray <> mkvec3 0 0 0).
  { apply mkvec3_neq_zero. right; right. simpl. lra. }
  split; [ exact Hk | ]. split; [ exact H | ].
  apply (ray_color_rescale_invariant scenario_A_ray 2 Hk H).
Defined.

(* ================================================================= *)
(** ** More on the quantisation and the layout of the framebuffer *)

Lemma clamp_monotone (u v lo hi : R) :
  lo <= hi -> u <= v -> clamp u lo hi <= clamp v lo hi.
Proof.
  intros H Huv. unfold clamp.
  destruct (Rlt_dec u lo), (Rlt_dec v lo); try lra;
    destruct (Rlt_dec hi v); try lra;
    destruct (Rlt_dec hi u); lra.
Qed.

Lemma clamp_below (v lo hi : R) :
  lo <= hi -> v <= lo -> clamp v lo hi = lo.
Proof.
  intros Hlh H. unfold clamp.
  destruct (Rlt_dec v lo); [ reflexivity | ].
  destruct (Rlt_dec hi v); lra.
Qed.

Lemma clamp_inside (v lo hi : R) : lo <= v <= hi -> clamp v lo hi = v.
Proof.
  intros H. unfold clamp.
  destruct (Rlt_dec v lo); [ lra | ].
  destruct (Rlt_dec hi v); lra.
Qed.

Lemma Int_part_monotone (u v : R) :
  u <= v -> (Int_part u <= Int_part v)%Z.
Proof.
  intros H.
  destruct (base_Int_part u) as [Hu _].
  destruct (base_Int_part v) as [_ Hv].
  assert (Hlt : (Int_part u < Int_part v + 1)%Z).
  { apply lt_IZR. rewrite plus_IZR. simpl. lra. }
  lia.
Qed.

(** X7: the byte stored for a channel is monotone in the channel value;
    every value [c <= 0] is stored as 0, and a value in [[0, 0.999]] is
    stored as the integer part of [256 * c]. *)
Theorem channel_byte_monotone (c1 c2 : R) :
  c1 <= c2 ->
  (exists n1 n2 : Z,
     channel_byte c1 = Some n1 /\ channel_byte c2 = Some n2 /\
     (n1 <= n2)%Z) /\
  (c2 <= 0 -> channel_byte c1 = Some 0%Z) /\
  (0 <= c1 -> c2 <= 0.999 ->
   channel_byte c1 = Some (Int_part (256 * c1)) /\
   channel_byte c2 = Some (Int_part (256 * c2))).
Proof.
  intros H.
  assert (Hb : forall v,
             channel_byte v = Some (Int_part (256 * clamp v 0 0.999))).
  { intros v. unfold channel_byte.
    destruct (to_uchar_byte _ (scaled_clamp_range v)) as [E _].
    rewrite E. f_equal. apply Rtrunc_nonneg.
    pose proof (scaled_clamp_range v). lra. }
  split; [ | split ].
  - exists (Int_part (256 * clamp c1 0 0.999)),
           (Int_part (256 * clamp c2 0 0.999)).
    split; [ apply Hb | ]. split; [ apply Hb | ].
    apply Int_part_monotone.
    pose proof (clamp_monotone c1 c2 0 0.999). lra.
  - intros Hc. rewrite Hb, clamp_below by lra.
    f_equal. symmetry. apply Int_part_spec. simpl. lra.
  - intros H0 H1. rewrite !Hb, !clamp_inside by lra. auto.
Qed.

Lemma channel_byte_monotone_witness :
  0.25 <= 0.5 /\
  channel_byte 0.25 = Some (Int_part (256 * 0.25)) /\
  channel_byte 0.5 = Some (Int_part (256 * 0.5)).
Proof.
  assert (H : 0.25 <= 0.5) by lra.
  split; [ exact H | ].
  apply (channel_byte_monotone 0.25 0.5 H); lra.
Defined.

(** Concatenating [n] blocks of [m] elements each: the element [k] of
    block [i] is at index [i * m + k]. *)
Lemma flat_map_blocks {A : Type} (f : nat -> list A) (m : nat) :
  (forall i, List.length (f i) = m) ->
  forall n s : nat,
    List.length (flat_map f (seq s n)) = (n * m)%nat /\
    forall i k : nat,
      (i < n)%nat -> (k < m)%nat ->
      nth_error (flat_map f (seq s n)) (i * m + k) = nth_error (f (s + i)%nat) k.
Proof.
  intros Hm. induction n as [ | n IH ]; intros s.
  - split; [ reflexivity | intros i k Hi; lia ].
  - destruct (IH (S s)) as [Hlen Hnth].
    cbn [seq flat_map]. split.
    + rewrite length_app, Hlen, Hm. lia.
    + intros i k Hi Hk. destruct i as [ | i ].
      * rewrite Nat.add_0_r. cbn [Nat.mul Nat.add].
        apply nth_error_app1. rewrite Hm. exact Hk.
      * rewrite nth_error_app2 by (rewrite Hm; lia).
        rewrite Hm.
        replace (S i * m + k - m)%nat with (i * m + k)%nat by lia.
        rewrite Hnth by lia. f_equal. f_equal. lia.
Qed.

Lemma render_pixel_length (camera : Camera) (i j : Z) :
  List.length (render_pixel camera i j) = 3%nat.
Proof. reflexivity. Qed.

(** X8: the sweep of [render_scene] fills a buffer of
    [image_width * image_height * 3] cells, and the three channels of the
    pixel in column [i] of row [j] are at [idx], [idx + 1], [idx + 2] with
    [idx = (j * image_width + i) * 3], each the quantised channel of
    [ray_color(camera.get_ray(i, j))].  The index arithmetic of the program
    is on [int]; the bound on the size says it does not wrap around. *)
Theorem render_scene_layout (camera : Camera)
    (image_width image_height i j : nat) :
  (i < image_width)%nat ->
  (j < image_height)%nat ->
  (Z.of_nat (image_width * image_height * 3) <= 2147483647)%Z ->
  let framebuffer := render_scene camera image_width image_height in
  let idx := ((j * image_width + i) * 3)%nat in
  let pixel_color :=
    ray_color (result (get_ray (Z.of_nat i) (Z.of_nat j)) camera) in
  List.length framebuffer = (image_width * image_height * 3)%nat /\
  nth_error framebuffer (idx + 0) = Some (channel_byte (x pixel_color)) /\
  nth_error framebuffer (idx + 1) = Some (channel_byte (y pixel_color)) /\
  nth_error framebuffer (idx + 2) = Some (channel_byte (z pixel_color)).
Proof.
  intros Hi Hj _ framebuffer idx pixel_color.
  set (row := fun j0 : nat =>
                flat_map (fun i0 : nat =>
                            render_pixel camera (Z.of_nat i0) (Z.of_nat j0))
                         (seq 0 image_width)).
  assert (Hrow : forall j0 : nat,
             List.length (row j0) = (image_width * 3)%nat /\
             forall i0 k : nat,
               (i0 < image_width)%nat -> (k < 3)%nat ->
               nth_error (row j0) (i0 * 3 + k)
               = nth_error (render_pixel camera (Z.of_nat i0) (Z.of_nat j0))
                           k).
  { intros j0.
    destruct (flat_map_blocks
                (fun i0 : nat =>
                   render_pixel camera (Z.of_nat i0) (Z.of_nat j0))
                3 (fun i0 => render_pixel_length camera _ _)
                image_width 0%nat) as [Hlen Hnth].
    split; [ exact Hlen | exact Hnth ]. }
  destruct (flat_map_blocks row (image_width * 3)
              (fun j0 => proj1 (Hrow j0)) image_height 0%nat)
    as [Hlen Hnth].
  change (flat_map row (seq 0 image_height)) with framebuffer in Hlen, Hnth.
  assert (Hcell : forall k : nat,
             (k < 3)%nat ->
             nth_error framebuffer (idx + k)
             = nth_error (render_pixel camera (Z.of_nat i) (Z.of_nat j)) k).
  { intros k Hk.
    replace (idx + k)%nat with (j * (image_width * 3) + (i * 3 + k))%nat
      by (unfold idx; lia).
    rewrite Hnth by lia.
    apply (proj2 (Hrow j)); assumption. }
  split; [ rewrite Hlen; lia | ].
  rewrite !Hcell by lia. repeat split.
Qed.

Lemma render_scene_layout_witness :
  let camera := new_Camera 2 1 (mkvec3 0 0 0) 1 in
  (1 < 2)%nat /\ (0 < 1)%nat /\
  (Z.of_nat (2 * 1 * 3) <= 2147483647)%Z /\
  nth_error (render_scene camera 2 1) 5
  = Some (channel_byte (z (ray_color (result (get_ray 1 0) camera)))).
Proof.
  intros camera.
  assert (Hi : (1 < 2)%nat) by lia.
  assert (Hj : (0 < 1)%nat) by lia.
  assert (Hs : (Z.of_nat (2 * 1 * 3) <= 2147483647)%Z) by (simpl; lia).
  split; [ exact Hi | ]. split; [ exact Hj | ]. split; [ exact Hs | ].
  apply (render_scene_layout camera 2 1 1 0 Hi Hj Hs).
Defined.

(* ================================================================= *)
(** ** Composing the mutators *)

(** Recomputing from two positions that are equal as vectors. *)
Lemma update_same_position (c1 c2 : Camera) (p1 p2 : point3) :
  p1 = p2 ->
  image_width_ c1 = image_width_ c2 ->
  image_height_ c1 = image_height_ c2 ->
  focal_length_ c1 = focal_length_ c2 ->
  yaw_ c1 = yaw_ c2 ->
  pitch_ c1 = pitch_ c2 ->
  world_up_ c1 = world_up_ c2 ->
  viewport_height_ c1 = viewport_height_ c2 ->
  exec update_camera_vectors (set_camera_center_ p1 c1)
  = exec update_camera_vectors (set_camera_center_ p2 c2).
Proof.
  intros -> Hw Hh Hf Hy Hp Hu Hv.
  apply update_camera_vectors_derived; assumption || reflexivity.
Qed.

Lemma set_camera_center_same (c : Camera) :
  exec update_camera_vectors (set_camera_center_ (camera_center_ c) c)
  = exec update_camera_vectors c.
Proof. apply update_camera_vectors_derived; reflexivity. Qed.

(** X9: on a camera whose derived members are up to date, [move(offset)]
    followed by [move(-offset)] restores the whole state, position and
    derived members alike. *)
Theorem move_round_trip (c : Camera) (offset : vec3) :
  up_to_date c ->
  exec (move (- offset)%V) (exec (move offset) c) = c.
Proof.
  intros Hup. unfold up_to_date in Hup.
  transitivity
    (exec update_camera_vectors (set_camera_center_ (camera_center_ c) c));
    [ | rewrite set_camera_center_same; exact Hup ].
  rewrite !move_exec.
  apply update_same_position; try reflexivity.
  cbn [camera_center_ exec snd update_camera_vectors set_camera_center_].
  vec_ring.
Qed.

Lemma move_round_trip_witness :
  let c := new_Camera 2 1 (mkvec3 0 0 0) 1 in
  up_to_date c /\
  exec (move (- mkvec3 1 2 3)%V) (exec (move (mkvec3 1 2 3)) c) = c.
Proof.
  intros c.
  assert (Hup : up_to_date c) by apply update_idempotent.
  split; [ exact Hup | ].
  apply (move_round_trip c (mkvec3 1 2 3) Hup).
Defined.

(** X10: over exact real arithmetic, two [move] calls in a row amount to one [move] by the sum of the
    offsets, on every camera state; and a [move] that follows a
    [set_position(p)] amounts to one [move] by the displacement to [p] plus
    the offset, so the derived state a [set_position] left behind is
    brought up to date by the next [move]. *)
Theorem move_composes (c : Camera) (a b : vec3) (p : point3) :
  exec (move b) (exec (move a) c) = exec (move (a + b)%V) c /\
  exec (move b) (exec (set_position p) c)
  = exec (move ((p - camera_center_ c) + b)%V) c /\
  up_to_date (exec (move b) (exec (set_position p) c)).
Proof.
  split; [ | split ].
  - rewrite !move_exec.
    apply update_same_position; try reflexivity.
    cbn [camera_center_ exec snd update_camera_vectors set_camera_center_].
    vec_ring.
  - rewrite !move_exec, set_position_exec.
    apply update_same_position; try reflexivity.
    cbn [camera_center_ set_camera_center_]. vec_ring.
  - rewrite move_exec. apply update_idempotent.
Qed.

Lemma clamped_pitch_cases (q p : R) :
  -89 <= p <= 89 ->
  (q > 89 -> p = 89) ->
  (q < -89 -> p = -89) ->
  (-89 <= q <= 89 -> p = q) ->
  p = Rmax (-89) (Rmin 89 q).
Proof.
  intros Hp Hhi Hlo Hin.
  unfold Rmax, Rmin.
  destruct (Rle_dec 89 q) as [H1 | H1].
  - destruct (Rle_dec (-89) 89); [ | lra ].
    destruct (Rle_lt_or_eq_dec _ _ H1) as [H | H];
      [ apply Hhi; lra | rewrite Hin; lra ].
  - destruct (Rle_dec (-89) q) as [H2 | H2].
    + apply Hin. lra.
    + apply Hlo. lra.
Qed.

(** X11: [rotate(delta_yaw, delta_pitch)] adds [delta_yaw] to the yaw
    without any wrap-around, sets the pitch to
    [max(-89, min(89, pitch + delta_pitch))], keeps the position, the image
    size, the focal length and the reference vector, and leaves the derived
    members up to date; the origin of every ray of [get_ray] is the same
    before and after. *)
Theorem rotate_effect (c : Camera) (delta_yaw delta_pitch : R)
    (pixel_x pixel_y : Z) :
  let c' := exec (rotate delta_yaw delta_pitch) c in
  yaw_ c' = yaw_ c + delta_yaw /\
  pitch_ c' = Rmax (-89) (Rmin 89 (pitch_ c + delta_pitch)) /\
  -89 <= pitch_ c' <= 89 /\
  camera_center_ c' = camera_center_ c /\
  image_width_ c' = image_width_ c /\
  image_height_ c' = image_height_ c /\
  focal_length_ c' = focal_length_ c /\
  world_up_ c' = world_up_ c /\
  up_to_date c' /\
  origin (result (get_ray pixel_x pixel_y) c')
  = origin (result (get_ray pixel_x pixel_y) c).
Proof.
  intros c'. unfold c'.
  destruct (rotate_exec delta_yaw delta_pitch c)
    as (p & -> & Hp & Hhi & Hlo & Hin).
  split; [ reflexivity | ].
  split; [ apply (clamped_pitch_cases _ p Hp Hhi Hlo Hin) | ].
  split; [ exact Hp | ].
  repeat split.
Qed.

(** X12: over exact real arithmetic, when the pitch after the first of two [rotate] calls is within the
    clamp without having been clamped, the two calls amount to one [rotate]
    by the sums of the deltas. *)
Theorem rotate_composes (c : Camera) (y1 a y2 b : R) :
  -89 <= pitch_ c + a <= 89 ->
  exec (rotate y2 b) (exec (rotate y1 a) c)
  = exec (rotate (y1 + y2) (a + b)) c.
Proof.
  intros Ha.
  destruct (rotate_exec y1 a c) as (p1 & E1 & _ & _ & _ & Hin1).
  specialize (Hin1 Ha). subst p1.
  destruct (rotate_exec y2 b (exec (rotate y1 a) c))
    as (p2 & E2 & Hp2 & Hhi2 & Hlo2 & Hin2).
  destruct (rotate_exec (y1 + y2) (a + b) c)
    as (p3 & E3 & Hp3 & Hhi3 & Hlo3 & Hin3).
  rewrite E2, E3.
  assert (Epitch : pitch_ (exec (rotate y1 a) c) = pitch_ c + a)
    by (rewrite E1; reflexivity).
  assert (Eyaw : yaw_ (exec (rotate y1 a) c) = yaw_ c + y1)
    by (rewrite E1; reflexivity).
  rewrite Epitch in Hhi2, Hlo2, Hin2.
  assert (Ep : p2 = p3).
  { rewrite (clamped_pitch_cases _ p2 Hp2 Hhi2 Hlo2 Hin2).
    rewrite (clamped_pitch_cases _ p3 Hp3 Hhi3 Hlo3 Hin3).
    f_equal. f_equal. ring. }
  apply update_camera_vectors_derived;
    cbn [image_width_ image_height_ camera_center_ focal_length_ yaw_
         pitch_ world_up_ viewport_height_ set_pitch_ set_yaw_];
    try (rewrite E1; reflexivity).
  - rewrite Eyaw. ring.
  - exact Ep.
Qed.

Lemma rotate_composes_witness :
  let c := new_Camera 2 1 (mkvec3 0 0 0) 1 in
  -89 <= pitch_ c + 30 <= 89 /\
  exec (rotate 5 100) (exec (rotate 10 30) c)
  = exec (rotate (10 + 5) (30 + 100)) c.
Proof.
  intros c.
  assert (H : -89 <= pitch_ c + 30 <= 89) by (simpl; lra).
  split; [ exact H | ].
  apply (rotate_composes c 10 30 5 100 H).
Defined.

(** X13: on a camera whose derived members are up to date, a [move] by the
    zero vector changes nothing, and when moreover the pitch is within the
    clamp a [rotate] by zero angles changes nothing. *)
Theorem null_calls_are_identity (c : Camera) :
  up_to_date c ->
  exec (move (mkvec3 0 0 0)) c = c /\
  (-89 <= pitch_ c <= 89 -> exec (rotate 0 0) c = c).
Proof.
  intros Hup. unfold up_to_date in Hup. split.
  - transitivity
      (exec update_camera_vectors
         (set_camera_center_ (camera_center_ c) c));
      [ | rewrite set_camera_center_same; exact Hup ].
    rewrite move_exec.
    apply update_same_position; try reflexivity. vec_ring.
  - intros Hp.
    destruct (rotate_exec 0 0 c) as (p & -> & _ & _ & _ & Hin).
    transitivity (exec update_camera_vectors c); [ | exact Hup ].
    apply update_camera_vectors_derived;
      cbn [image_width_ image_height_ camera_center_ focal_length_ yaw_
           pitch_ world_up_ viewport_height_ set_pitch_ set_yaw_];
      try reflexivity.
    + ring.
    + rewrite Hin by lra. ring.
Qed.

Lemma null_calls_are_identity_witness :
  let c := new_Camera 2 1 (mkvec3 0 0 0) 1 in
  up_to_date c /\ exec (move (mkvec3 0 0 0)) c = c.
Proof.
  intros c.
  assert (Hup : up_to_date c) by apply update_idempotent.
  split; [ exact Hup | ].
  apply (null_calls_are_identity c Hup).
Defined.

(* ================================================================= *)
(** ** The basis in closed form and the geometry of the pixel grid *)

Lemma right_closed_form (a b : R) :
  0 < cos b ->
  unit_vector
    (cross (mkvec3 (cos a * cos b) (sin b) (sin a * cos b)) (mkvec3 0 1 0))
  = mkvec3 (- sin a) 0 (cos a).
Proof.
  intros Hc.
  pose proof (sin_cos_squares a) as Ha.
  assert (El : length
                 (cross (mkvec3 (cos a * cos b) (sin b) (sin a * cos b))
                        (mkvec3 0 1 0)) = cos b).
  { unfold length.
    replace (length_squared
               (cross (mkvec3 (cos a * cos b) (sin b) (sin a * cos b))
                      (mkvec3 0 1 0)))
      with (cos b * cos b).
    - apply sqrt_square. lra.
    - unfold length_squared, cross; simpl.
      transitivity ((sin a * sin a + cos a * cos a) * (cos b * cos b));
        [ rewrite Ha; ring | ring ]. }
  unfold unit_vector. rewrite El.
  apply vec3_eq; simpl; field; lra.
Qed.

Lemma up_closed_form (a b : R) :
  unit_vector
    (cross (mkvec3 (- sin a) 0 (cos a))
           (mkvec3 (cos a * cos b) (sin b) (sin a * cos b)))
  = mkvec3 (- cos a * sin b) (cos b) (- sin a * sin b).
Proof.
  pose proof (sin_cos_squares a) as Ha.
  pose proof (sin_cos_squares b) as Hb.
  assert (Ec : cross (mkvec3 (- sin a) 0 (cos a))
                     (mkvec3 (cos a * cos b) (sin b) (sin a * cos b))
               = mkvec3 (- cos a * sin b) (cos b) (- sin a * sin b)).
  { apply vec3_eq; simpl; try ring.
    transitivity ((sin a * sin a + cos a * cos a) * cos b);
      [ ring | rewrite Ha; ring ]. }
  rewrite Ec. apply unit_vector_of_unit.
  unfold length_squared; simpl.
  transitivity ((sin a * sin a + cos a * cos a) * (sin b * sin b)
                + cos b * cos b); [ ring | rewrite Ha; lra ].
Qed.

(** The basis a good pose is recomputed to. *)
Lemma update_basis (c : Camera) :
  world_up_ c = mkvec3 0 1 0 ->
  -89 <= pitch_ c <= 89 ->
  let c' := exec update_camera_vectors c in
  let a := radians (yaw_ c) in
  let b := radians (pitch_ c) in
  front_ c' = mkvec3 (cos a * cos b) (sin b) (sin a * cos b) /\
  camera_right_ c' = mkvec3 (- sin a) 0 (cos a) /\
  camera_up_ c' = mkvec3 (- cos a * sin b) (cos b) (- sin a * sin b) /\
  y (camera_right_ c') = 0 /\
  0 < y (camera_up_ c').
Proof.
  intros Hw Hp c' a b.
  pose proof (cos_radians_clamped _ Hp) as Hc. fold b in Hc.
  assert (Ef : front_ c' = mkvec3 (cos a * cos b) (sin b) (sin a * cos b))
    by apply update_front.
  assert (Er : camera_right_ c' = mkvec3 (- sin a) 0 (cos a)).
  { unfold c'. rewrite update_right. fold c'. rewrite Ef.
    change (world_up_ c') with (world_up_ c). rewrite Hw.
    apply right_closed_form, Hc. }
  assert (Eu : camera_up_ c'
               = mkvec3 (- cos a * sin b) (cos b) (- sin a * sin b)).
  { unfold c'. rewrite update_up. fold c'. rewrite Er, Ef.
    apply up_closed_form. }
  split; [ exact Ef | ]. split; [ exact Er | ]. split; [ exact Eu | ].
  rewrite Er, Eu. simpl. split; [ reflexivity | exact Hc ].
Qed.

(** X14: over exact real arithmetic, with the reference vector (0, 1, 0) and a pitch within the clamp,
    [update_camera_vectors] leaves, for [a = radians(yaw)] and
    [b = radians(pitch)], [front_ = (cos a cos b, sin b, sin a cos b)],
    [camera_right_ = (-sin a, 0, cos a)] and
    [camera_up_ = (-cos a sin b, cos b, -sin a sin b)]: the right vector is
    horizontal and does not depend on the pitch, and the up vector has a
    positive vertical component, so the camera is never upside down. *)
Theorem basis_closed_form (c : Camera) :
  world_up_ c = mkvec3 0 1 0 ->
  -89 <= pitch_ c <= 89 ->
  let c' := exec update_camera_vectors c in
  let a := radians (yaw_ c) in
  let b := radians (pitch_ c) in
  front_ c' = mkvec3 (cos a * cos b) (sin b) (sin a * cos b) /\
  camera_right_ c' = mkvec3 (- sin a) 0 (cos a) /\
  camera_up_ c' = mkvec3 (- cos a * sin b) (cos b) (- sin a * sin b) /\
  y (camera_right_ c') = 0 /\
  0 < y (camera_up_ c').
Proof. exact (update_basis c). Qed.

Lemma basis_closed_form_witness :
  let c := set_pitch_ 89 (new_Camera 2 1 (mkvec3 0 0 0) 1) in
  world_up_ c = mkvec3 0 1 0 /\
  -89 <= pitch_ c <= 89 /\
  0 < y (camera_up_ (exec update_camera_vectors c)).
Proof.
  intros c.
  assert (Hw : world_up_ c = mkvec3 0 1 0) by reflexivity.
  assert (Hp : -89 <= pitch_ c <= 89) by (simpl; lra).
  split; [ exact Hw | ]. split; [ exact Hp | ].
  apply (basis_closed_form c Hw Hp).
Defined.

Lemma dot_combination (f r u : vec3) (k a b : R) :
  dot (k * f + a * r + b * u)%V f
  = k * length_squared f + a * dot f r + b * dot f u.
Proof. unfold dot, length_squared; simpl. ring. Qed.

Lemma length_vscale (k : R) (v : vec3) :
  length (k * v)%V = Rabs k * length v.
Proof.
  unfold length.
  replace (length_squared (k * v)%V) with (Rsqr k * length_squared v)
    by (unfold length_squared, Rsqr; simpl; ring).
  rewrite sqrt_mult;
    [ | apply Rle_0_sqr | apply length_squared_nonneg ].
  rewrite sqrt_Rsqr_abs. reflexivity.
Qed.

(** The direction of a ray of the recomputed camera, along the basis. *)
Lemma get_ray_direction_in_basis (c : Camera) (pixel_x pixel_y : Z) :
  let c' := exec update_camera_vectors c in
  let W := IZR (image_width_ c) in
  let H := IZR (image_height_ c) in
  direction (result (get_ray pixel_x pixel_y) c')
  = (focal_length_ c * front_ c'
     + (viewport_height_ c * (W / H)
        * ((IZR pixel_x + 0.5) / W - 1 / 2)) * camera_right_ c'
     + (- viewport_height_ c
        * ((IZR pixel_y + 0.5) / H - 1 / 2)) * camera_up_ c')%V.
Proof.
  intros c' W H. unfold c'.
  rewrite get_ray_result. cbn [direction].
  rewrite update_pixel00.
  destruct (update_pixel_deltas c) as (-> & -> & -> & -> & ->).
  fold W H.
  change (camera_center_ (exec update_camera_vectors c))
    with (camera_center_ c).
  generalize (front_ (exec update_camera_vectors c))
             (camera_right_ (exec update_camera_vectors c))
             (camera_up_ (exec update_camera_vectors c)).
  intros f r u.
  apply vec3_eq; simpl; unfold Rdiv; ring.
Qed.

(** The pixel steps of the recomputed camera, along the basis. *)
Lemma pixel_deltas_in_basis (c : Camera) :
  IZR (image_width_ c) <> 0 ->
  let c' := exec update_camera_vectors c in
  pixel_delta_u_ c'
  = ((viewport_height_ c / IZR (image_height_ c)) * camera_right_ c')%V /\
  pixel_delta_v_ c'
  = ((- (viewport_height_ c / IZR (image_height_ c))) * camera_up_ c')%V.
Proof.
  intros HW c'. unfold c'.
  destruct (update_pixel_deltas c) as (-> & -> & -> & -> & ->).
  generalize (camera_right_ (exec update_camera_vectors c))
             (camera_up_ (exec update_camera_vectors c)).
  intros r u.
  pose proof (Rinv_r _ HW) as E.
  set (W := IZR (image_width_ c)) in *.
  set (k := viewport_height_ c * / IZR (image_height_ c)).
  split; apply vec3_eq; simpl; unfold Rdiv; try ring.
  - transitivity ((W * / W) * (k * x r)); [ unfold k; ring | rewrite E; unfold k; ring ].
  - transitivity ((W * / W) * (k * y r)); [ unfold k; ring | rewrite E; unfold k; ring ].
  - transitivity ((W * / W) * (k * z r)); [ unfold k; ring | rewrite E; unfold k; ring ].
Qed.

Lemma orthonormal_squares (f r u : vec3) :
  orthonormal f r u ->
  length_squared f = 1 /\ length_squared r = 1 /\ length_squared u = 1.
Proof.
  intros (_ & _ & _ & Hf & Hr & Hu).
  rewrite <- !length_sqr, Hf, Hr, Hu. repeat split; ring.
Qed.

(** X15: over exact real arithmetic, on a camera whose derived members are up to date, with the
    reference vector (0, 1, 0) and a pitch within the clamp (every state
    reached by construction, [move] and [rotate]), the direction of every
    ray of [get_ray] has the component [focal_length_] along [front_]: the
    pixel grid lies in the plane at distance [focal_length_] in front of the
    camera, and no ray has a zero direction unless the focal length is
    zero. *)
Theorem rays_cross_viewport_plane (c : Camera) (pixel_x pixel_y : Z) :
  up_to_date c ->
  pose_ok c ->
  dot (direction (result (get_ray pixel_x pixel_y) c)) (front_ c)
  = focal_length_ c /\
  (focal_length_ c <> 0 ->
   direction (result (get_ray pixel_x pixel_y) c) <> mkvec3 0 0 0).
Proof.
  intros Hup Hok. unfold up_to_date in Hup.
  pose proof (get_ray_direction_in_basis c pixel_x pixel_y) as Hdir.
  destruct (update_orthonormal c Hok) as (_ & Hon).
  cbv zeta in Hdir, Hon. rewrite Hup in Hdir, Hon.
  destruct (orthonormal_squares _ _ _ Hon) as (Hf & _ & _).
  destruct Hon as (Hfr & Hfu & _).
  assert (Hdot : dot (direction (result (get_ray pixel_x pixel_y) c))
                     (front_ c) = focal_length_ c).
  { rewrite Hdir, dot_combination, Hf, Hfr, Hfu. ring. }
  split; [ exact Hdot | ].
  intros HF E. rewrite E in Hdot. apply HF. rewrite <- Hdot.
  unfold dot; simpl. ring.
Qed.

Lemma rays_cross_viewport_plane_witness :
  let c := new_Camera 2 1 (mkvec3 0 0 0) 1 in
  up_to_date c /\ pose_ok c /\
  dot (direction (result (get_ray 0 0) c)) (front_ c) = focal_length_ c.
Proof.
  intros c.
  assert (Hup : up_to_date c) by apply update_idempotent.
  assert (Hok : pose_ok c) by apply new_Camera_pose_ok.
  split; [ exact Hup | ]. split; [ exact Hok | ].
  apply (rays_cross_viewport_plane c 0 0 Hup Hok).
Defined.

(** X16: over exact real arithmetic, on such a camera with positive image dimensions, the two pixel
    steps are orthogonal to each other and to [front_], and both have the
    length [|viewport_height_| / image_height_]: the pixels are squares. *)
Theorem pixels_are_square (c : Camera) :
  up_to_date c ->
  pose_ok c ->
  (0 < image_width_ c)%Z ->
  (0 < image_height_ c)%Z ->
  dot (pixel_delta_u_ c) (pixel_delta_v_ c) = 0 /\
  dot (front_ c) (pixel_delta_u_ c) = 0 /\
  dot (front_ c) (pixel_delta_v_ c) = 0 /\
  length (pixel_delta_u_ c)
  = Rabs (viewport_height_ c) / IZR (image_height_ c) /\
  length (pixel_delta_v_ c)
  = Rabs (viewport_height_ c) / IZR (image_height_ c).
Proof.
  intros Hup Hok HW HH. unfold up_to_date in Hup.
  assert (HW' : IZR (image_width_ c) <> 0)
    by (apply not_0_IZR; lia).
  assert (HH' : 0 < IZR (image_height_ c)) by (apply IZR_lt; exact HH).
  destruct (pixel_deltas_in_basis c HW') as [Edu Edv].
  destruct (update_orthonormal c Hok) as (_ & Hon).
  cbv zeta in Hon. rewrite Hup in Edu, Edv, Hon.
  destruct Hon as (Hfr & Hfu & Hru & _ & Hr & Hu).
  set (k := viewport_height_ c / IZR (image_height_ c)) in *.
  assert (Ek : Rabs k = Rabs (viewport_height_ c) / IZR (image_height_ c)).
  { unfold k, Rdiv. rewrite Rabs_mult, (Rabs_pos_eq (/ _)); [ reflexivity | ].
    left. apply Rinv_0_lt_compat, HH'. }
  rewrite Edu, Edv. repeat split.
  - transitivity (k * - k * dot (camera_right_ c) (camera_up_ c));
      [ unfold dot; simpl; ring | rewrite Hru; ring ].
  - transitivity (k * dot (front_ c) (camera_right_ c));
      [ unfold dot; simpl; ring | rewrite Hfr; ring ].
  - transitivity (- k * dot (front_ c) (camera_up_ c));
      [ unfold dot; simpl; ring | rewrite Hfu; ring ].
  - rewrite length_vscale, Hr, Ek. ring.
  - rewrite length_vscale, Rabs_Ropp, Hu, Ek. ring.
Qed.

Lemma pixels_are_square_witness :
  let c := new_Camera 2 1 (mkvec3 0 0 0) 1 in
  up_to_date c /\ pose_ok c /\
  (0 < image_width_ c)%Z /\ (0 < image_height_ c)%Z /\
  dot (pixel_delta_u_ c) (pixel_delta_v_ c) = 0.
Proof.
  intros c.
  assert (Hup : up_to_date c) by apply update_idempotent.
  assert (Hok : pose_ok c) by apply new_Camera_pose_ok.
  assert (HW : (0 < image_width_ c)%Z) by (simpl; lia).
  assert (HH : (0 < image_height_ c)%Z) by (simpl; lia).
  split; [ exact Hup | ]. split; [ exact Hok | ].
  split; [ exact HW | ]. split; [ exact HH | ].
  apply (pixels_are_square c Hup Hok HW HH).
Defined.

(** X17: over exact real arithmetic, on a camera whose derived members are up to date and whose image
    dimensions are odd, [2m + 1] by [2n + 1], the ray of the middle pixel
    [(m, n)] has the direction [front_ * focal_length_]: the image is
    centred on the viewing direction. *)
Theorem middle_pixel_looks_forward (c : Camera) (m n : Z) :
  up_to_date c ->
  image_width_ c = (2 * m + 1)%Z ->
  image_height_ c = (2 * n + 1)%Z ->
  direction (result (get_ray m n) c)
  = vscale_r (front_ c) (focal_length_ c).
Proof.
  intros Hup HW HH. unfold up_to_date in Hup.
  pose proof (get_ray_direction_in_basis c m n) as Hdir.
  cbv zeta in Hdir. rewrite Hup in Hdir. rewrite Hdir.
  rewrite HW, HH.
  assert (HW' : IZR (2 * m + 1) <> 0) by (apply not_0_IZR; lia).
  assert (HH' : IZR (2 * n + 1) <> 0) by (apply not_0_IZR; lia).
  rewrite !plus_IZR, !mult_IZR in *.
  generalize (front_ c) (camera_right_ c) (camera_up_ c). intros f r u.
  unfold vscale_r. replace 0.5 with (1 / 2) by lra.
  apply vec3_eq; simpl; field; split; assumption.
Qed.

Lemma middle_pixel_looks_forward_witness :
  let c := new_Camera 3 1 (mkvec3 0 0 0) 1 in
  up_to_date c /\
  image_width_ c = (2 * 1 + 1)%Z /\
  image_height_ c = (2 * 0 + 1)%Z /\
  direction (result (get_ray 1 0) c)
  = vscale_r (front_ c) (focal_length_ c).
Proof.
  intros c.
  assert (Hup : up_to_date c) by apply update_idempotent.
  assert (HW : image_width_ c = (2 * 1 + 1)%Z) by reflexivity.
  assert (HH : image_height_ c = (2 * 0 + 1)%Z) by reflexivity.
  split; [ exact Hup | ]. split; [ exact HW | ]. split; [ exact HH | ].
  apply (middle_pixel_looks_forward c 1 0 Hup HW HH).
Defined.

(* ================================================================= *)
(** ** The event loop *)

(** Projections of the loop state through its assignments. *)
Ltac loop_simpl :=
  cbn [camera framebuffer camera_speed lastFrameTime delta_time
       rightMousePressed lastMouseX lastMouseY sensitivity invertY reload
       set_camera set_framebuffer set_times set_rightMousePressed
       set_lastMouse set_widgets set_reload fst snd negb] in *.

Lemma length_squared_in_basis (f r u : vec3) (a b k : R) :
  orthonormal f r u ->
  length_squared (a * r + b * f + k * u)%V = a * a + b * b + k * k.
Proof.
  intros Hon.
  destruct (orthonormal_squares _ _ _ Hon) as (Hf & Hr & Hu).
  destruct Hon as (Hfr & Hfu & Hru & _).
  transitivity (a * a * length_squared r + b * b * length_squared f
                + k * k * length_squared u
                + 2 * a * b * dot f r + 2 * b * k * dot f u
                + 2 * a * k * dot r u).
  - unfold length_squared, dot; simpl. ring.
  - rewrite Hf, Hr, Hu, Hfr, Hfu, Hru. ring.
Qed.

Lemma keyboard_offset_in_basis (e : frame_events) (s : loop_state) :
  let step := camera_speed s * delta_time s in
  keyboard_offset e s
  = (((pressed (key_D e) - pressed (key_A e)) * step)
       * camera_right_ (camera s)
     + ((pressed (key_W e) - pressed (key_S e)) * step)
       * front_ (camera s)
     + ((pressed (key_LEFT_CONTROL e) - pressed (key_SPACE e)) * step)
       * camera_up_ (camera s))%V.
Proof.
  intros step. unfold step, keyboard_offset, vscale_r, pressed, to_float.
  cbn [result get_right get_forward get_up gets fst].
  destruct (key_A e), (key_D e), (key_W e), (key_S e), (key_SPACE e),
    (key_LEFT_CONTROL e); vec_ring.
Qed.

(** X18: over exact real arithmetic (the float casts being the identity), the offset the six movement keys accumulate in one iteration is
    [step * ((D - A) * right + (W - S) * forward + (CONTROL - SPACE) * up)]
    with [step = camera_speed * delta_time] and each key counted 1 when
    pressed and 0 otherwise: opposite keys cancel, SPACE moves against the
    up vector, and with an orthonormal basis the squared length of the
    offset is [step^2] times the number of axes with exactly one key
    pressed, so moving along two or three axes at once is faster than
    along one. *)
Theorem keyboard_offset_formula (e : frame_events) (s : loop_state) :
  orthonormal (front_ (camera s)) (camera_right_ (camera s))
              (camera_up_ (camera s)) ->
  let step := camera_speed s * delta_time s in
  let dr := pressed (key_D e) - pressed (key_A e) in
  let df := pressed (key_W e) - pressed (key_S e) in
  let du := pressed (key_LEFT_CONTROL e) - pressed (key_SPACE e) in
  keyboard_offset e s
  = ((dr * step) * camera_right_ (camera s)
     + (df * step) * front_ (camera s)
     + (du * step) * camera_up_ (camera s))%V /\
  length_squared (keyboard_offset e s)
  = step * step * (dr * dr + df * df + du * du) /\
  (key_A e = key_D e -> key_W e = key_S e ->
   key_SPACE e = key_LEFT_CONTROL e ->
   keyboard_offset e s = mkvec3 0 0 0).
Proof.
  intros Hon step dr df du.
  pose proof (keyboard_offset_in_basis e s) as E. cbv zeta in E.
  fold step dr df du in E.
  split; [ exact E | ]. split.
  - rewrite E, (length_squared_in_basis _ _ _ _ _ _ Hon). ring.
  - intros HA HW HS. rewrite E. unfold dr, df, du.
    rewrite HA, HW, HS. vec_ring.
Qed.

Lemma keyboard_offset_formula_witness :
  let s := loop_init 0 in
  let e := mkframe_events 1 false 0 0 false false true false false false
                          false 1 0.2 true in
  orthonormal (front_ (camera s)) (camera_right_ (camera s))
              (camera_up_ (camera s)) /\
  length_squared (keyboard_offset e s)
  = (camera_speed s * delta_time s) * (camera_speed s * delta_time s)
    * ((0 - 0) * (0 - 0) + (1 - 0) * (1 - 0) + (0 - 0) * (0 - 0)).
Proof.
  intros s e.
  assert (H : orthonormal (front_ (camera s)) (camera_right_ (camera s))
                          (camera_up_ (camera s)))
    by apply new_Camera_orthonormal.
  split; [ exact H | ].
  apply (keyboard_offset_formula e s H).
Defined.

(** One iteration, member by member. *)
Lemma frame_spec (e : frame_events) (s : loop_state) :
  let s0 := set_times (currentFrameTime e)
                      (currentFrameTime e - lastFrameTime s) s in
  let s1 := fst (mouse_look e s0) in
  let rotated := snd (mouse_look e s0) in
  let move_offset := keyboard_offset e s1 in
  let moved :=
    if Rgt_dec (length_squared move_offset) 0 then true else false in
  let cam :=
    if Rgt_dec (length_squared move_offset) 0
    then exec (move move_offset) (camera s1)
    else camera s1 in
  camera (frame e s) = cam /\
  framebuffer (frame e s)
  = (if orb (orb rotated moved) (orb (button_Reload e) (reload s))
     then render_scene cam image_width image_height
     else framebuffer s) /\
  reload (frame e s) = false /\
  rightMousePressed (frame e s) = mouse_button_right e /\
  lastMouseX (frame e s)
  = (if mouse_button_right e then mouseX e else lastMouseX s) /\
  lastMouseY (frame e s)
  = (if mouse_button_right e then mouseY e else lastMouseY s) /\
  camera_speed (frame e s) = slider_camera_speed e /\
  sensitivity (frame e s) = slider_sensitivity e /\
  invertY (frame e s) = checkbox_invertY e /\
  lastFrameTime (frame e s) = currentFrameTime e /\
  delta_time (frame e s) = currentFrameTime e - lastFrameTime s.
Proof.
  unfold frame, mouse_look.
  destruct (mouse_button_right e); loop_simpl;
    [ destruct (rightMousePressed s) eqn:Hpressed; loop_simpl | ];
    destruct (Rgt_dec _ _); loop_simpl;
    destruct (button_Reload e); loop_simpl;
    destruct (reload s) eqn:Hreload; loop_simpl;
    try rewrite Hreload; loop_simpl;
    repeat split; exact Hpressed.
Qed.

Lemma mouse_look_spec (e : frame_events) (s : loop_state) :
  let s1 := fst (mouse_look e s) in
  let rotated := snd (mouse_look e s) in
  framebuffer s1 = framebuffer s /\
  camera_speed s1 = camera_speed s /\
  delta_time s1 = delta_time s /\
  (if andb (mouse_button_right e) (rightMousePressed s)
   then rotated = true /\
        camera s1
        = exec (rotate ((mouseX e - lastMouseX s) * sensitivity s)
                       ((if invertY s
                         then mouseY e - lastMouseY s
                         else - (mouseY e - lastMouseY s))
                        * sensitivity s))
               (camera s)
   else rotated = false /\ camera s1 = camera s).
Proof.
  unfold mouse_look.
  destruct (mouse_button_right e), (rightMousePressed s);
    loop_simpl; cbn [andb]; repeat split.
Qed.

(** What the loop keeps true of its camera and of its framebuffer. *)
Lemma frame_invariant (e : frame_events) (s : loop_state) :
  framebuffer s = render_scene (camera s) image_width image_height ->
  pose_ok (camera s) ->
  orthonormal (front_ (camera s)) (camera_right_ (camera s))
              (camera_up_ (camera s)) ->
  up_to_date (camera s) ->
  framebuffer (frame e s)
  = render_scene (camera (frame e s)) image_width image_height /\
  pose_ok (camera (frame e s)) /\
  orthonormal (front_ (camera (frame e s)))
              (camera_right_ (camera (frame e s)))
              (camera_up_ (camera (frame e s))) /\
  up_to_date (camera (frame e s)).
Proof.
  intros Hfb Hok Hon Hup.
  destruct (frame_spec e s) as (Ecam & Efb & _).
  cbv zeta in Ecam, Efb.
  set (s0 := set_times (currentFrameTime e)
                       (currentFrameTime e - lastFrameTime s) s) in *.
  destruct (mouse_look_spec e s0) as (_ & _ & _ & Hlook).
  cbv zeta in Hlook.
  set (s1 := fst (mouse_look e s0)) in *.
  set (rotated := snd (mouse_look e s0)) in *.
  change (camera s0) with (camera s) in Hlook.
  assert (H1 : pose_ok (camera s1) /\
               orthonormal (front_ (camera s1)) (camera_right_ (camera s1))
                           (camera_up_ (camera s1)) /\
               up_to_date (camera s1) /\
               (rotated = false -> camera s1 = camera s)).
  { destruct (andb _ _).
    - destruct Hlook as [Hr Hc].
      match type of Hc with
      | _ = exec (rotate ?dy ?dp) _ =>
          destruct (perform_pose_ok (Rotate dy dp) (camera s) Hok)
            as (H1 & H2 & H3)
      end.
      cbn [perform] in H1, H2, H3. rewrite Hc.
      repeat split; try assumption; try apply H1; try apply H2.
      rewrite Hr. discriminate.
    - destruct Hlook as [_ ->]. repeat split; try assumption; apply Hok
        || apply Hon. }
  destruct H1 as (Hok1 & Hon1 & Hup1 & Hsame).
  rewrite Ecam, Efb.
  destruct (Rgt_dec _ _) as [Hmove | Hmove].
  - rewrite Bool.orb_true_r. cbn [orb].
    destruct (perform_pose_ok (Move (keyboard_offset e s1)) (camera s1) Hok1)
      as (H1 & H2 & H3).
    cbn [perform] in H1, H2, H3.
    repeat split; try assumption; try apply H1; try apply H2.
  - rewrite Bool.orb_false_r.
    split; [ | repeat split; try assumption; apply Hok1 || apply Hon1 ].
    destruct rotated.
    + reflexivity.
    + cbn [orb]. rewrite (Hsame eq_refl).
      destruct (orb _ _); [ reflexivity | exact Hfb ].
Qed.

(** X19: at the end of every iteration of the event loop, whatever the
    window reported in this and the earlier iterations, the framebuffer is
    the render of the current camera (a change of the camera is always
    followed by a render), it has [image_width * image_height * 3] cells,
    the pitch of the camera is within [[-89, 89]], the derived members of
    the camera are up to date, and the reload flag is reset. *)
Theorem loop_keeps_display_current (t0 : R) (es : list frame_events) :
  let s := frames es (loop_init t0) in
  framebuffer s = render_scene (camera s) image_width image_height /\
  List.length (framebuffer s) = (image_width * image_height * 3)%nat /\
  -89 <= pitch_ (camera s) <= 89 /\
  up_to_date (camera s) /\
  reload s = false.
Proof.
  intros s.
  assert (Hinv : forall (es0 : list frame_events) (s0 : loop_state),
             framebuffer s0
             = render_scene (camera s0) image_width image_height ->
             pose_ok (camera s0) ->
             orthonormal (front_ (camera s0)) (camera_right_ (camera s0))
                         (camera_up_ (camera s0)) ->
             up_to_date (camera s0) ->
             reload s0 = false ->
             framebuffer (frames es0 s0)
             = render_scene (camera (frames es0 s0))
                            image_width image_height /\
             pose_ok (camera (frames es0 s0)) /\
             up_to_date (camera (frames es0 s0)) /\
             reload (frames es0 s0) = false).
  { induction es0 as [ | e es0 IH ]; intros s0 Hfb Hok Hon Hup Hre.
    - cbn [frames]. auto.
    - cbn [frames].
      destruct (frame_invariant e s0 Hfb Hok Hon Hup)
        as (Hfb' & Hok' & Hon' & Hup').
      destruct (frame_spec e s0) as (_ & _ & Hre' & _).
      apply IH; assumption. }
  destruct (Hinv es (loop_init t0)) as (Hfb & Hok & Hup & Hre).
  - reflexivity.
  - apply new_Camera_pose_ok.
  - apply new_Camera_orthonormal.
  - apply update_idempotent.
  - reflexivity.
  - fold s in Hfb, Hok, Hup, Hre.
    split; [ exact Hfb | ].
    split; [ | split; [ apply Hok | auto ] ].
    rewrite Hfb. unfold render_scene.
    pose proof (flat_map_blocks
                  (fun j0 : nat =>
                     flat_map
                       (fun i0 : nat =>
                          render_pixel (camera s) (Z.of_nat i0)
                                       (Z.of_nat j0))
                       (seq 0 image_width))
                  (image_width * 3)) as Hrows.
    destruct (Hrows
                (fun j0 =>
                   proj1 (flat_map_blocks
                            (fun i0 : nat =>
                               render_pixel (camera s) (Z.of_nat i0)
                                            (Z.of_nat j0))
                            3 (fun i0 => render_pixel_length _ _ _)
                            image_width 0%nat))
                image_height 0%nat) as [Hlen _].
    rewrite Hlen. lia.
Qed.

Lemma move_keeps_yaw (offset : vec3) (c : Camera) :
  yaw_ (exec (move offset) c) = yaw_ c.
Proof. reflexivity. Qed.

(** The yaw after one iteration. *)
Lemma frame_yaw (e : frame_events) (s : loop_state) :
  yaw_ (camera (frame e s))
  = yaw_ (camera s)
    + (if andb (mouse_button_right e) (rightMousePressed s)
       then (mouseX e - lastMouseX s) * sensitivity s
       else 0).
Proof.
  destruct (frame_spec e s) as (Ecam & _). cbv zeta in Ecam.
  set (s0 := set_times (currentFrameTime e)
                       (currentFrameTime e - lastFrameTime s) s) in *.
  destruct (mouse_look_spec e s0) as (_ & _ & _ & Hlook).
  cbv zeta in Hlook.
  change (rightMousePressed s0) with (rightMousePressed s) in Hlook.
  change (lastMouseX s0) with (lastMouseX s) in Hlook.
  change (sensitivity s0) with (sensitivity s) in Hlook.
  change (camera s0) with (camera s) in Hlook.
  assert (Hyaw : yaw_ (camera (frame e s))
                 = yaw_ (camera (fst (mouse_look e s0)))).
  { rewrite Ecam. destruct (Rgt_dec _ _); [ apply move_keeps_yaw | ];
      reflexivity. }
  rewrite Hyaw.
  destruct (andb _ _).
  - destruct Hlook as [_ ->].
    match goal with
    | |- yaw_ (exec (rotate ?dy ?dp) ?c) = _ =>
        destruct (rotate_exec dy dp c) as (p & -> & _)
    end.
    reflexivity.
  - destruct Hlook as [_ ->]. ring.
Qed.

Lemma last_cons_default {A : Type} (a d : A) (l : list A) :
  last (a :: l) d = last l a.
Proof.
  revert a d. induction l as [ | b l IH ]; intros a d; [ reflexivity | ].
  change (last (a :: b :: l) d) with (last (b :: l) d).
  rewrite (IH b d), (IH b a). reflexivity.
Qed.

(** While the button stays pressed and the sensitivity stays [k], the yaw
    follows the cursor. *)
Lemma drag_yaw (k : R) (es : list frame_events) :
  forall s : loop_state,
    rightMousePressed s = true ->
    sensitivity s = k ->
    Forall (fun e => mouse_button_right e = true /\ slider_sensitivity e = k)
           es ->
    yaw_ (camera (frames es s))
    = yaw_ (camera s)
      + (last (map mouseX es) (lastMouseX s) - lastMouseX s) * k.
Proof.
  induction es as [ | e es IH ]; intros s Hpressed Hk Hall.
  - cbn [frames map last]. ring.
  - inversion Hall as [ | ? ? [Hbutton Hslider] Hall' ]; subst.
    cbn [frames map]. rewrite last_cons_default.
    destruct (frame_spec e s)
      as (_ & _ & _ & Hp & Hx & _ & _ & Hs & _).
    cbv zeta in Hp, Hx, Hs. rewrite Hbutton in Hp, Hx.
    rewrite (IH (frame e s)); [ | exact Hp | rewrite Hs; exact Hslider
                                | exact Hall' ].
    rewrite frame_yaw, Hbutton, Hpressed, Hx. cbn [andb]. ring.
Qed.

(** X20: over exact real arithmetic (the float casts being the identity), a drag with the right mouse button, from the iteration in which
    the button goes down through any number of iterations in which it stays
    down, with the sensitivity slider left at [k], changes the yaw by
    exactly [k] times the horizontal distance between the cursor position
    of the last iteration and that of the first, whatever the path in
    between and whatever keys are pressed; the iteration in which the button
    goes down does not rotate. *)
Theorem drag_changes_yaw_by_cursor_travel (k : R) (e0 : frame_events)
    (es : list frame_events) (s : loop_state) :
  rightMousePressed s = false ->
  Forall (fun e => mouse_button_right e = true /\ slider_sensitivity e = k)
         (e0 :: es) ->
  yaw_ (camera (frame e0 s)) = yaw_ (camera s) /\
  yaw_ (camera (frames (e0 :: es) s))
  = yaw_ (camera s) + (mouseX (last es e0) - mouseX e0) * k.
Proof.
  intros Hup Hall.
  inversion Hall as [ | ? ? [Hbutton Hslider] Hall' ]; subst.
  assert (Hfirst : yaw_ (camera (frame e0 s)) = yaw_ (camera s)).
  { rewrite frame_yaw, Hbutton, Hup. cbn [andb]. ring. }
  split; [ exact Hfirst | ].
  destruct (frame_spec e0 s) as (_ & _ & _ & Hp & Hx & _ & _ & Hs & _).
  cbv zeta in Hp, Hx, Hs. rewrite Hbutton in Hp, Hx.
  cbn [frames].
  rewrite (drag_yaw (slider_sensitivity e0) es (frame e0 s) Hp Hs Hall').
  rewrite Hfirst, Hx.
  replace (last (map mouseX es) (mouseX e0)) with (mouseX (last es e0));
    [ reflexivity | ].
  clear. generalize e0. induction es as [ | e es IH ]; intros d;
    [ reflexivity | ].
  cbn [map]. rewrite !last_cons_default. apply IH.
Qed.

Lemma drag_changes_yaw_by_cursor_travel_witness :
  let s := loop_init 0 in
  let e0 := mkframe_events 1 true 10 0 false false false false false false
                           false 1 0.2 true in
  let e1 := mkframe_events 2 true 25 0 false false false false false false
                           false 1 0.2 true in
  rightMousePressed s = false /\
  yaw_ (camera (frames (e0 :: e1 :: nil) s))
  = yaw_ (camera s) + (25 - 10) * 0.2.
Proof.
  intros s e0 e1.
  assert (Hup : rightMousePressed s = false) by reflexivity.
  assert (Hall : Forall (fun e => mouse_button_right e = true
                                  /\ slider_sensitivity e = 0.2)
                        (e0 :: e1 :: nil)).
  { repeat constructor. }
  split; [ exact Hup | ].
  apply (drag_changes_yaw_by_cursor_travel 0.2 e0 (e1 :: nil) s Hup Hall).
Defined.

(** X21: an iteration in which the right button is up, each pair of
    opposite keys is either both pressed or both released, and Reload is not
    clicked leaves the camera and the framebuffer as they were: nothing is
    moved and nothing is rendered. *)
Theorem idle_frame_changes_nothing (e : frame_events) (s : loop_state) :
  mouse_button_right e = false ->
  key_A e = key_D e ->
  key_W e = key_S e ->
  key_SPACE e = key_LEFT_CONTROL e ->
  button_Reload e = false ->
  reload s = false ->
  camera (frame e s) = camera s /\
  framebuffer (frame e s) = framebuffer s.
Proof.
  intros Hbutton HA HW HS Hreload Hre.
  destruct (frame_spec e s) as (Ecam & Efb & _). cbv zeta in Ecam, Efb.
  set (s0 := set_times (currentFrameTime e)
                       (currentFrameTime e - lastFrameTime s) s) in *.
  destruct (mouse_look_spec e s0) as (_ & _ & _ & Hlook).
  cbv zeta in Hlook. rewrite Hbutton in Hlook. cbn [andb] in Hlook.
  destruct Hlook as [Hrot Hcam].
  change (camera s0) with (camera s) in Hcam.
  assert (Hoff : keyboard_offset e (fst (mouse_look e s0)) = mkvec3 0 0 0).
  { rewrite keyboard_offset_in_basis. unfold pressed.
    rewrite HA, HW, HS. vec_ring. }
  rewrite Hoff in Ecam, Efb.
  destruct (Rgt_dec (length_squared (mkvec3 0 0 0)) 0) as [Habs | _].
  - exfalso. unfold length_squared in Habs; simpl in Habs. lra.
  - rewrite Ecam, Efb, Hrot, Hreload, Hre, Hcam. cbn [orb]. auto.
Qed.

Lemma idle_frame_changes_nothing_witness :
  let s := loop_init 0 in
  let e := mkframe_events 1 false 0 0 true true false false false false
                          false 1 0.2 true in
  mouse_button_right e = false /\ reload s = false /\
  camera (frame e s) = camera s.
Proof.
  intros s e.
  assert (H1 : mouse_button_right e = false) by reflexivity.
  assert (H2 : key_A e = key_D e) by reflexivity.
  assert (H3 : key_W e = key_S e) by reflexivity.
  assert (H4 : key_SPACE e = key_LEFT_CONTROL e) by reflexivity.
  assert (H5 : button_Reload e = false) by reflexivity.
  assert (H6 : reload s = false) by reflexivity.
  split; [ exact H1 | ]. split; [ exact H6 | ].
  apply (idle_frame_changes_nothing e s H1 H2 H3 H4 H5 H6).
Defined.

(* ================================================================= *)
(** ** The first program *)

Lemma Ppm_image_height : Ppm.image_height = 225%Z.
Proof.
  unfold Ppm.image_height, Ppm.image_width, Ppm.aspect_ratio.
  replace (Rtrunc (400 / (16 / 9))) with 225%Z; [ reflexivity | ].
  rewrite Rtrunc_nonneg by lra.
  apply Int_part_spec. lra.
Qed.

(** X22: over exact real arithmetic, the first program renders 400 by 225 pixels, and the ray it casts
    through the pixel in column [i] of row [j] starts at the origin with the
    direction [((2 i - 399) / 225, (224 - 2 j) / 225, -1)]: no ray has a
    zero direction, the image is mirror-symmetric about its vertical and
    horizontal centre lines, and the middle row [j = 112] is level. *)
Theorem Ppm_pixel_ray_closed_form (i j : Z) :
  Ppm.image_width = 400%Z /\
  Ppm.image_height = 225%Z /\
  origin (Ppm.pixel_ray i j) = mkvec3 0 0 0 /\
  direction (Ppm.pixel_ray i j)
  = mkvec3 ((2 * IZR i - 399) / 225) ((224 - 2 * IZR j) / 225) (-1) /\
  direction (Ppm.pixel_ray i j) <> mkvec3 0 0 0 /\
  x (direction (Ppm.pixel_ray (399 - i) j))
  = - x (direction (Ppm.pixel_ray i j)) /\
  y (direction (Ppm.pixel_ray i (224 - j)))
  = - y (direction (Ppm.pixel_ray i j)) /\
  y (direction (Ppm.pixel_ray i 112)) = 0.
Proof.
  assert (Hd : forall i0 j0 : Z,
             direction (Ppm.pixel_ray i0 j0)
             = mkvec3 ((2 * IZR i0 - 399) / 225)
                      ((224 - 2 * IZR j0) / 225) (-1)).
  { intros i0 j0.
    unfold Ppm.pixel_ray, Ppm.pixel00_loc, Ppm.viewport_upper_left,
      Ppm.pixel_delta_u, Ppm.pixel_delta_v, Ppm.viewport_u, Ppm.viewport_v,
      Ppm.viewport_width, Ppm.camera_center, Ppm.focal_length,
      Ppm.viewport_height.
    rewrite Ppm_image_height. unfold Ppm.image_width.
    apply vec3_eq; simpl; lra. }
  split; [ reflexivity | ]. split; [ exact Ppm_image_height | ].
  split; [ reflexivity | ]. split; [ apply Hd | ].
  split; [ rewrite Hd; apply mkvec3_neq_zero; right; right; lra | ].
  rewrite !Hd. cbn [x y]. rewrite !minus_IZR.
  repeat split; lra.
Qed.


Lemma radians_0 : radians 0 = 0.
Proof. unfold radians, M_PI. lra. Qed.

Lemma sin_quarter_turn : 0 < sin (- radians (-90)).
Proof.
  pose proof PI_lower_bound.
  apply sin_gt_0; unfold radians, M_PI; lra.
Qed.

(** X24: a freshly constructed camera is at the given position with yaw
    -90 and pitch 0, its derived members are up to date, and it is level and
    looks down the negative z axis: [camera_up_] is exactly (0, 1, 0),
    [front_] and [camera_right_] are horizontal, [front_] has a negative z
    component and [camera_right_] a positive x component. *)
Theorem constructed_camera_is_level (image_width image_height : Z) (position : point3)
    (focal_length : R) :
  let c := new_Camera image_width image_height position focal_length in
  camera_center_ c = position /\
  yaw_ c = -90 /\
  pitch_ c = 0 /\
  up_to_date c /\
  camera_up_ c = mkvec3 0 1 0 /\
  y (front_ c) = 0 /\
  z (front_ c) < 0 /\
  y (camera_right_ c) = 0 /\
  0 < x (camera_right_ c) /\
  x (camera_right_ c) = - z (front_ c) /\
  z (camera_right_ c) = x (front_ c).
Proof.
  intros c.
  assert (Hw : world_up_ c = mkvec3 0 1 0) by reflexivity.
  assert (Hp : -89 <= 0 <= 89) by lra.
  pose proof sin_quarter_turn as Hs. rewrite sin_neg in Hs.
  destruct (update_basis
              {| image_width_ := image_width;
                 image_height_ := image_height;
                 camera_center_ := position;
                 focal_length_ := focal_length;
                 yaw_ := -90;
                 pitch_ := 0;
                 front_ := mkvec3 0 0 (-1);
                 camera_right_ := vec3_default;
                 camera_up_ := vec3_default;
                 world_up_ := mkvec3 0 1 0;
                 viewport_height_ := 2;
                 viewport_width_ := 0;
                 viewport_u_ := vec3_default;
                 viewport_v_ := vec3_default;
                 pixel_delta_u_ := vec3_default;
                 pixel_delta_v_ := vec3_default;
                 viewport_upper_left_ := vec3_default;
                 pixel00_loc_ := vec3_default |} eq_refl Hp)
    as (Ef & Er & Eu & _).
  cbn [yaw_ pitch_] in Ef, Er, Eu.
  fold (new_Camera image_width image_height position focal_length)
    in Ef, Er, Eu.
  fold c in Ef, Er, Eu.
  rewrite radians_0, sin_0, cos_0 in Ef, Eu.
  split; [ reflexivity | ]. split; [ reflexivity | ].
  split; [ reflexivity | ]. split; [ apply update_idempotent | ].
  rewrite Ef, Er, Eu. cbn [x y z].
  split; [ apply vec3_eq; simpl; ring | ].
  repeat split; try reflexivity; lra.
Qed.

(* ================================================================= *)
(** ** The shading function in binary64 *)

(** C6, as stated, fails on the program's arithmetic: the origin of
    [Binary64.inside_ray] is strictly inside the fixed sphere (its squared
    distance to the centre, computed exactly, is below 1/4) and its
    direction (0, -1, 0) is not zero, yet in binary64 the squared distance
    rounds to more than 1/4, [hit_sphere] returns the positive [t = 2^-54],
    and [ray_color] takes the hit branch: the colour it returns has a red
    channel below 1 and is not the sky gradient (1, 1, 1) of that
    direction. *)
Lemma binary64_shades_a_ray_from_inside :
  (Binary64.value (Binary64.x Binary64.inside_origin) ^ 2
   + Binary64.value (Binary64.y Binary64.inside_origin) ^ 2
   + (Binary64.value (Binary64.z Binary64.inside_origin) + 1) ^ 2
   < 1 # 4)%Q /\
  Binary64.direction Binary64.inside_ray <> Binary64.zero_vector /\
  Binary64.positive
    (Binary64.hit_sphere Binary64.sphere_center Binary64.sphere_radius
                         Binary64.inside_ray) = true /\
  Binary64.sky_gradient (Binary64.direction Binary64.inside_ray)
  = Binary64.white /\
  Binary64.below (Binary64.x (Binary64.ray_color Binary64.inside_ray))
                 (Binary64.x Binary64.white) = true /\
  Binary64.ray_color Binary64.inside_ray
  <> Binary64.sky_gradient (Binary64.direction Binary64.inside_ray).
Proof.
  assert (Hsky : Binary64.sky_gradient
                   (Binary64.direction Binary64.inside_ray)
                 = Binary64.white)
    by (vm_compute; reflexivity).
  assert (Hx : Binary64.below
                 (Binary64.x (Binary64.ray_color Binary64.inside_ray))
                 (Binary64.x Binary64.white) = true)
    by (vm_compute; reflexivity).
  split; [ vm_compute; reflexivity | ].
  split.
  { intros E.
    apply (f_equal (fun v => Binary64.below (Binary64.y v)
                                            (Binary64.y Binary64.zero_vector)))
      in E.
    vm_compute in E. discriminate E. }
  split; [ vm_compute; reflexivity | ].
  split; [ exact Hsky | ].
  split; [ exact Hx | ].
  intros E. rewrite Hsky in E.
  apply (f_equal (fun v => Binary64.below (Binary64.x v)
                                          (Binary64.x Binary64.white)))
    in E.
  rewrite Hx in E. vm_compute in E. discriminate E.
Qed.
